(** * excalibur-sdf-text: SDF font atlas construction and batched text renderer

    A shallow embedding of [src/main.ts]: the [SDFFont] constructor (glyph
    table, shelf packing of the atlas canvas, RGBA expansion of the distance
    bitmaps) and the [SDFTextRenderer] batch (texture slots, quad counter,
    automatic flushes), followed by the properties of the design document
    that were checked against it.

    Conventions.  JavaScript numbers that hold integers are [Z]; a string is
    the list of its UTF-16 code units; a [Map] with string keys is a [gmap];
    a loop that may run forever takes fuel and answers [None] when the fuel
    is gone; a [throw] is the [Throw] constructor of [result]. *)

From Stdlib Require Import ZArith List Bool Lia QArith String DecimalString.
From stdpp Require Import base option list gmap.

Local Open Scope Z_scope.

(* ===================================================================== *)
(** ** JavaScript strings and their iterator *)
(* ===================================================================== *)

(** A string is its sequence of UTF-16 code units. *)
Abbreviation JSString := (list Z).

Definition isLeadSurrogate (u : Z) : bool := (55296 <=? u) && (u <=? 56319).   (* D800..DBFF *)
Definition isTrailSurrogate (u : Z) : bool := (56320 <=? u) && (u <=? 57343).  (* DC00..DFFF *)

(** [for (const c of s)] and [s[Symbol.iterator]()]: one step yields one
    code point, a lead surrogate followed by a trail surrogate being taken
    together and every other code unit alone. *)
Fixpoint codePoints (s : JSString) : list JSString :=
  match s with
  | [] => []
  | u :: rest =>
      match rest with
      | v :: rest' =>
          if isLeadSurrogate u && isTrailSurrogate v
          then [u; v] :: codePoints rest'
          else [u] :: codePoints rest
      | [] => [[u]]
      end
  end.

(** [s.length] counts code units. *)
Definition js_length (s : JSString) : Z := Z.of_nat (length s).

(** [Math.ceil(a / b)] for integers [a] and [b > 0]. *)
Definition ceilDiv (a b : Z) : Z := - ((- a) / b).

(** [Math.ceil(Math.sqrt(n))] for an integer [n >= 0]. *)
Definition ceilSqrt (n : Z) : Z := Z.sqrt_up n.

(* ===================================================================== *)
(** ** Errors *)
(* ===================================================================== *)

Inductive JSError :=
  | Error (msg : string)
  | TypeError.

Inductive result (A : Type) :=
  | Ok (a : A)
  | Throw (e : JSError).
Arguments Ok {A} a.
Arguments Throw {A} e.

(* ===================================================================== *)
(** ** Glyphs, image data and the canvas *)
(* ===================================================================== *)

(** [interface SDFGlyph]; [data] is the one-channel distance bitmap. *)
Record SDFGlyph := {
  data : list Z;
  width : Z;
  height : Z;
  glyphWidth : Z;
  glyphHeight : Z;
  glyphTop : Z;
  glyphLeft : Z;
  glyphAdvance : Z
}.

(** The options handed to [new TinySDF(...)]; the font family is the
    constant ['sans-serif']. *)
Record TinySDFOptions := {
  tiny_fontSize : Z;
  tiny_fontStyle : string;
  tiny_fontWeight : string;
  tiny_buffer : Z;
  tiny_radius : Z
}.

Definition RGBA : Type := Z * Z * Z * Z.

(** A [Uint8ClampedArray]: its length and its elements.  A store clamps
    the value to a byte; a store outside the array does nothing. *)
Record Uint8ClampedArray := {
  ta_length : Z;
  ta_get : Z -> Z
}.

Definition clampByte (v : Z) : Z := Z.max 0 (Z.min 255 v).

Definition newUint8ClampedArray (n : Z) : Uint8ClampedArray :=
  {| ta_length := n; ta_get := fun _ => 0 |}.

Definition ta_set (i v : Z) (a : Uint8ClampedArray) : Uint8ClampedArray :=
  if (0 <=? i) && (i <? ta_length a)
  then {| ta_length := ta_length a;
          ta_get := fun k => if k =? i then clampByte v else ta_get a k |}
  else a.

Record ImageData := {
  img_width : Z;
  img_height : Z;
  img_data : Uint8ClampedArray
}.

(** [new ImageData(width, height)]: [4 * width * height] zero bytes.  (A
    browser refuses a size of zero; the properties that read pixels are
    stated for bitmaps of positive size.) *)
Definition newImageData (w h : Z) : ImageData :=
  {| img_width := w; img_height := h; img_data := newUint8ClampedArray (4 * w * h) |}.

(** The pixel in column [i], row [j] of an image. *)
Definition imagePixel (img : ImageData) (i j : Z) : RGBA :=
  let o := 4 * (j * img_width img + i) in
  (ta_get (img_data img) o, ta_get (img_data img) (o + 1),
   ta_get (img_data img) (o + 2), ta_get (img_data img) (o + 3)).

(** An [HTMLCanvasElement] with its 2D bitmap.  [canvas_id] is the identity
    of the object: the renderer keys its tables on it. *)
Record Canvas := {
  canvas_id : nat;
  canvas_width : Z;
  canvas_height : Z;
  pixels : Z -> Z -> RGBA
}.

Definition transparent : RGBA := (0, 0, 0, 0).

(** [document.createElement('canvas')]: 300 x 150, transparent black. *)
Definition createCanvas (id : nat) : Canvas :=
  {| canvas_id := id; canvas_width := 300; canvas_height := 150;
     pixels := fun _ _ => transparent |}.

(** Assigning [width] or [height] clears the bitmap. *)
Definition setWidth (w : Z) (c : Canvas) : Canvas :=
  {| canvas_id := canvas_id c; canvas_width := w; canvas_height := canvas_height c;
     pixels := fun _ _ => transparent |}.
Definition setHeight (h : Z) (c : Canvas) : Canvas :=
  {| canvas_id := canvas_id c; canvas_width := canvas_width c; canvas_height := h;
     pixels := fun _ _ => transparent |}.

Definition inCanvas (c : Canvas) (x y : Z) : bool :=
  (0 <=? x) && (x <? canvas_width c) && (0 <=? y) && (y <? canvas_height c).

(** [ctx.putImageData(img, dx, dy)]: the image's pixels replace the
    canvas pixels under it; what falls outside the canvas is dropped. *)
Definition putImageData (img : ImageData) (dx dy : Z) (c : Canvas) : Canvas :=
  {| canvas_id := canvas_id c; canvas_width := canvas_width c;
     canvas_height := canvas_height c;
     pixels := fun x y =>
       if inCanvas c x y
          && (dx <=? x) && (x <? dx + img_width img)
          && (dy <=? y) && (y <? dy + img_height img)
       then imagePixel img (x - dx) (y - dy)
       else pixels c x y |}.

(** What the page gives the constructor: the canvas element and its 2D
    context (either may be missing), and the tiny-sdf rasterizer. *)
Record Browser := {
  createElement_canvas : option nat;
  getContext_2d : bool;
  TinySDF_draw : TinySDFOptions -> JSString -> SDFGlyph
}.

(* ===================================================================== *)
(** ** SDFFont *)
(* ===================================================================== *)

Record SDFFontOptions := {
  opt_fontWeight : option Z;
  opt_fontStyle : option string;
  opt_alphabet : option JSString;
  opt_fontSize : option Z
}.

(** The fields of the class the properties read; the colour is left out. *)
Record SDFFont := {
  atlasCanvas : Canvas;
  glyphs : gmap JSString SDFGlyph;
  glyphAtlasLocation : gmap JSString (Z * Z);
  _fontSize : Z;
  _size : Z;
  _buffer : Z;
  _radius : Z
}.

(** [get gamma() { return 2 * 1.4142 / this._fontSize }] as an exact
    fraction, and [get halo()]. *)
Definition gamma (f : SDFFont) : Q := ((28284 # 10000) / inject_Z (_fontSize f))%Q.
Definition halo (f : SDFFont) : Q := (75 # 100)%Q.

(** The module constant of line 699, [const fontSize = 100]: the name
    [fontSize] inside the constructor resolves to it. *)
Definition fontSize : Z := 100.

(** The alphabet used when the options give none. *)
Definition defaultAlphabet : JSString :=
  [55356; 57270; 55356; 57225; 55356; 57218; 10084; 65039; 9681; 65103; 9680; 32;
   97; 98; 99; 100; 101; 102; 103; 104; 105; 106; 107; 108; 109; 110; 111; 112; 113;
   114; 115; 116; 117; 118; 119; 120; 121; 122; 126; 33; 64; 35; 36; 37; 94; 38; 42;
   40; 41; 60; 62; 63; 39; 34; 58; 59; 65; 66; 67; 68; 69; 70; 71; 72; 73; 74; 75;
   76; 77; 78; 79; 80; 81; 82; 83; 84; 85; 86; 87; 88; 89; 90; 49; 50; 51; 52; 53;
   54; 55; 56; 57; 48; 123; 125; 92; 124].

(** [_makeRGBAImageData]: the loop body for index [i], then the loop over
    the glyph's bitmap. *)
Definition storeRGBA (i : Z) (a : Z) (d : Uint8ClampedArray) : Uint8ClampedArray :=
  ta_set (4 * i + 3) 255 (ta_set (4 * i + 2) a (ta_set (4 * i + 1) a (ta_set (4 * i + 0) a d))).

Fixpoint fillRGBA (alphaChannel : list Z) (i : Z) (d : Uint8ClampedArray)
  : Uint8ClampedArray :=
  match alphaChannel with
  | [] => d
  | a :: rest => fillRGBA rest (i + 1) (storeRGBA i a d)
  end.

Definition _makeRGBAImageData (alphaChannel : list Z) (w h : Z) : ImageData :=
  let imageData := newImageData w h in
  {| img_width := img_width imageData; img_height := img_height imageData;
     img_data := fillRGBA alphaChannel 0 (img_data imageData) |}.

(** "Generate sdf atlas data": one [glyphs.set] per code point. *)
Definition generateGlyphs (draw : JSString -> SDFGlyph) (cps : list JSString)
  : gmap JSString SDFGlyph :=
  fold_left (fun m codePoint => <[codePoint := draw codePoint]> m) cps ∅.

(** The state the two packing loops share: the canvas, the location
    table, the iterator (its remaining code points; [[]] is [done]), and
    the two cursors' steps. *)
Record Atlas := {
  at_canvas : Canvas;
  at_location : gmap JSString (Z * Z);
  at_next : list JSString;
  at_currentSize : Z;
  at_maxHeight : Z
}.

(** The inner loop, entered with column [x] in row [y]. *)
Fixpoint packRow (glyphTable : gmap JSString SDFGlyph) (y x currentSize maxHeight : Z)
    (next : list JSString) (canvas : Canvas) (location : gmap JSString (Z * Z))
  : result Atlas :=
  match next with
  | codePoint :: next' =>
      if x + currentSize <=? canvas_width canvas then
        match glyphTable !! codePoint with
        | None => Throw TypeError
        | Some glyph =>
            let currentSize := width glyph in
            let maxHeight := Z.max maxHeight (height glyph) in
            let canvas :=
              putImageData (_makeRGBAImageData (data glyph) (width glyph) (height glyph))
                           x y canvas in
            let location := <[codePoint := (x, y)]> location in
            packRow glyphTable y (x + currentSize) currentSize maxHeight next' canvas location
        end
      else Ok {| at_canvas := canvas; at_location := location; at_next := next;
                 at_currentSize := currentSize; at_maxHeight := maxHeight |}
  | [] => Ok {| at_canvas := canvas; at_location := location; at_next := [];
                at_currentSize := currentSize; at_maxHeight := maxHeight |}
  end.

(** The outer loop, entered with row origin [y]; one unit of fuel per
    test of its condition. *)
Fixpoint packRows (fuel : nat) (glyphTable : gmap JSString SDFGlyph) (y : Z) (a : Atlas)
  : option (result Atlas) :=
  match fuel with
  | O => None
  | S fuel' =>
      if (y + at_maxHeight a <=? canvas_height (at_canvas a))
         && negb (bool_decide (at_next a = []))
      then
        match packRow glyphTable y 0 (at_currentSize a) 0
                      (at_next a) (at_canvas a) (at_location a) with
        | Throw e => Some (Throw e)
        | Ok a' => packRows fuel' glyphTable (y + at_maxHeight a') a'
        end
      else Some (Ok a)
  end.

(** "Build atlas": from the first [codePoints.next()] to the end of the
    loops. *)
Definition buildAtlas (fuel : nat) (glyphTable : gmap JSString SDFGlyph)
    (cps : list JSString) (canvas : Canvas) : option (result Atlas) :=
  let start := {| at_canvas := canvas; at_location := ∅; at_next := cps;
                  at_currentSize := 0; at_maxHeight := 0 |} in
  match cps with
  | [] => Some (Ok start)
  | _ :: _ => packRows fuel glyphTable 0 start
  end.

(** [options.fontWeight?.toString()] for an integer weight. *)
Definition toString (n : Z) : string := NilZero.string_of_int (Z.to_int n).

(** [new SDFFont(options)]. *)
Definition SDFFont_new (fuel : nat) (env : Browser) (options : SDFFontOptions)
  : option (result SDFFont) :=
  match createElement_canvas env with
  | None => Some (Throw (Error "Cannot Build SDF Font Atlas Canvas"))
  | Some id =>
      if negb (getContext_2d env)
      then Some (Throw (Error "Cannot Build SDF Font Atlas Context"))
      else
        let this_fontSize := default 16 (opt_fontSize options) in
        let fontWeight := default "100"%string (toString <$> opt_fontWeight options) in
        let fontStyle := default "normal"%string (opt_fontStyle options) in
        let alphabet := default defaultAlphabet (opt_alphabet options) in
        let buffer := ceilDiv fontSize 8 in
        let radius := ceilDiv fontSize 3 in
        let size := fontSize + buffer * 2 in
        let dimension := ceilSqrt (js_length alphabet) * size in
        let canvas := setHeight dimension (setWidth dimension (createCanvas id)) in
        let tinySdf :=
          TinySDF_draw env {| tiny_fontSize := fontSize; tiny_fontStyle := fontStyle;
                              tiny_fontWeight := fontWeight; tiny_buffer := buffer;
                              tiny_radius := radius |} in
        let glyphTable := generateGlyphs tinySdf (codePoints alphabet) in
        match buildAtlas fuel glyphTable (codePoints alphabet) canvas with
        | None => None
        | Some (Throw e) => Some (Throw e)
        | Some (Ok a) =>
            Some (Ok {| atlasCanvas := at_canvas a; glyphs := glyphTable;
                        glyphAtlasLocation := at_location a;
                        _fontSize := this_fontSize; _size := size;
                        _buffer := buffer; _radius := radius |})
        end
  end.

(* ===================================================================== *)
(** ** SDFTextRenderer *)
(* ===================================================================== *)

(** A texture is named by the image it was uploaded from: the engine's
    texture loader keeps one texture per image, so [textureLoader.load]
    and [textureLoader.get] both answer the image's own texture. *)
Abbreviation WebGLTexture := nat (only parsing).
Definition textureLoader_load (image : Canvas) : WebGLTexture := canvas_id image.
Definition textureLoader_get (image : Canvas) : WebGLTexture := canvas_id image.

(** One glyph quad as [draw] writes it: the atlas rectangle and the image
    size its four UV pairs are made of, and the texture index stored in
    each of its four vertices.  Screen positions and colours are floating
    point and are not carried.  [q_char], [q_image], [q_gamma] and [q_halo]
    record what the quad was emitted for. *)
Record Quad := {
  q_char : JSString;
  q_sx : Z;
  q_sy : Z;
  q_sw : Z;
  q_sh : Z;
  q_imageWidth : Z;
  q_imageHeight : Z;
  q_textureId : Z;
  q_image : nat;
  q_gamma : Q;
  q_halo : Q
}.

(** One [gl.drawElements] call: the quads it covers, its index count, the
    texture bound to each unit, and the two uniforms. *)
Record DrawCall := {
  dc_quads : list Quad;
  dc_indices : Z;
  dc_units : list (option WebGLTexture);
  dc_gamma : Q;
  dc_halo : Q
}.

(** What [initialize] asks of the context: the hardware limit, and whether
    the test shader with a given number of branches compiles. *)
Record WebGL := {
  MAX_TEXTURE_IMAGE_UNITS : Z;
  compiles : Z -> bool
}.

Definition _maxImages : Z := 10922.

(** The renderer's fields.  [vertexBuffer] holds the quads written at
    offsets below [_vertexIndex], 36 numbers each; [drawElements] is the
    list of draw calls issued so far. *)
Record SDFTextRenderer := {
  _imageCount : Z;
  _maxTextures : Z;
  _textures : list WebGLTexture;
  _textureIndex : Z;
  _textureToIndex : gmap WebGLTexture Z;
  _images : gset nat;
  _vertexIndex : Z;
  _imageToWidth : gmap nat Z;
  _imageToHeight : gmap nat Z;
  _sdfGamma : Q;
  _sdfHalo : Q;
  vertexBuffer : list Quad;
  drawElements : list DrawCall
}.

(** [n | 0] for an integer [n]: the signed 32-bit integer congruent to [n]
    modulo 2^32. *)
Definition toInt32 (n : Z) : Z := (n + 2147483648) mod 4294967296 - 2147483648.

(** [getMaxShaderComplexity]: the do-while loop, one unit of fuel per
    compilation.  [(numIfs / 2) | 0] drops the fraction of the quotient
    and wraps it to 32 bits. *)
Fixpoint getMaxShaderComplexity (fuel : nat) (gl : WebGL) (numIfs : Z) : option Z :=
  match fuel with
  | O => None
  | S fuel' =>
      if compiles gl numIfs then Some numIfs
      else getMaxShaderComplexity fuel' gl (toInt32 (Z.quot numIfs 2))
  end.

(** The fields as the class initializers and [initialize] leave them. *)
Definition newRenderer (maxTextures : Z) : SDFTextRenderer :=
  {| _imageCount := 0; _maxTextures := maxTextures; _textures := [];
     _textureIndex := 0; _textureToIndex := ∅; _images := ∅; _vertexIndex := 0;
     _imageToWidth := ∅; _imageToHeight := ∅;
     _sdfGamma := ((28284 # 10000) / inject_Z 16)%Q; _sdfHalo := (75 # 100)%Q;
     vertexBuffer := []; drawElements := [] |}.

Definition initialize (fuel : nat) (gl : WebGL) : option SDFTextRenderer :=
  let maxTexture := MAX_TEXTURE_IMAGE_UNITS gl in
  match getMaxShaderComplexity fuel gl maxTexture with
  | None => None
  | Some maxComplexity => Some (newRenderer (Z.min maxTexture maxComplexity))
  end.

(** [_addImageAsTexture]. *)
Definition _addImageAsTexture (image : Canvas) (r : SDFTextRenderer) : SDFTextRenderer :=
  if bool_decide (canvas_id image ∈ _images r) then r
  else
    let texture := textureLoader_load image in
    if bool_decide (texture ∈ _textures r) then r
    else
      {| _imageCount := _imageCount r; _maxTextures := _maxTextures r;
         _textures := _textures r ++ [texture];
         _textureIndex := _textureIndex r + 1;
         _textureToIndex := <[texture := _textureIndex r]> (_textureToIndex r);
         _images := {[canvas_id image]} ∪ _images r;
         _vertexIndex := _vertexIndex r;
         _imageToWidth := _imageToWidth r; _imageToHeight := _imageToHeight r;
         _sdfGamma := _sdfGamma r; _sdfHalo := _sdfHalo r;
         vertexBuffer := vertexBuffer r; drawElements := drawElements r |}.

(** [_bindTextures]: unit [i] receives [_textures[i] || _textures[0]]. *)
Definition _bindTextures (r : SDFTextRenderer) : list (option WebGLTexture) :=
  map (fun i => match _textures r !! i with
                | Some t => Some t
                | None => _textures r !! 0%nat
                end)
      (seq 0 (Z.to_nat (_maxTextures r))).

(** [_getTextureIdForImage]. *)
Definition _getTextureIdForImage (image : Canvas) (r : SDFTextRenderer) : Z :=
  default (-1) (_textureToIndex r !! textureLoader_get image).

(** [_isFull]. *)
Definition _isFull (r : SDFTextRenderer) : bool :=
  if _maxImages <=? _imageCount r then true
  else if _maxTextures r <=? Z.of_nat (length (_textures r)) then true
  else false.

(** [_getImageWidth] and [_getImageHeight]: the value and the cache. *)
Definition _getImageWidth (image : Canvas) (r : SDFTextRenderer) : Z * SDFTextRenderer :=
  match _imageToWidth r !! canvas_id image with
  | Some w => (w, r)
  | None =>
      (canvas_width image,
       {| _imageCount := _imageCount r; _maxTextures := _maxTextures r;
          _textures := _textures r; _textureIndex := _textureIndex r;
          _textureToIndex := _textureToIndex r; _images := _images r;
          _vertexIndex := _vertexIndex r;
          _imageToWidth := <[canvas_id image := canvas_width image]> (_imageToWidth r);
          _imageToHeight := _imageToHeight r;
          _sdfGamma := _sdfGamma r; _sdfHalo := _sdfHalo r;
          vertexBuffer := vertexBuffer r; drawElements := drawElements r |})
  end.

Definition _getImageHeight (image : Canvas) (r : SDFTextRenderer) : Z * SDFTextRenderer :=
  match _imageToHeight r !! canvas_id image with
  | Some h => (h, r)
  | None =>
      (canvas_height image,
       {| _imageCount := _imageCount r; _maxTextures := _maxTextures r;
          _textures := _textures r; _textureIndex := _textureIndex r;
          _textureToIndex := _textureToIndex r; _images := _images r;
          _vertexIndex := _vertexIndex r;
          _imageToWidth := _imageToWidth r;
          _imageToHeight := <[canvas_id image := canvas_height image]> (_imageToHeight r);
          _sdfGamma := _sdfGamma r; _sdfHalo := _sdfHalo r;
          vertexBuffer := vertexBuffer r; drawElements := drawElements r |})
  end.

(** [flush]. *)
Definition flush (r : SDFTextRenderer) : SDFTextRenderer :=
  if _imageCount r =? 0 then r
  else
    let call :=
      {| dc_quads := take (Z.to_nat (_imageCount r)) (vertexBuffer r);
         dc_indices := _imageCount r * 6;
         dc_units := _bindTextures r;
         dc_gamma := _sdfGamma r; dc_halo := _sdfHalo r |} in
    {| _imageCount := 0; _maxTextures := _maxTextures r; _textures := [];
       _textureIndex := 0; _textureToIndex := ∅; _images := ∅; _vertexIndex := 0;
       _imageToWidth := ∅; _imageToHeight := ∅;
       _sdfGamma := _sdfGamma r; _sdfHalo := _sdfHalo r;
       vertexBuffer := []; drawElements := drawElements r ++ [call] |}.

(** The assignment of the two uniforms' values in [draw]. *)
Definition setShading (g h : Q) (r : SDFTextRenderer) : SDFTextRenderer :=
  {| _imageCount := _imageCount r; _maxTextures := _maxTextures r;
     _textures := _textures r; _textureIndex := _textureIndex r;
     _textureToIndex := _textureToIndex r; _images := _images r;
     _vertexIndex := _vertexIndex r;
     _imageToWidth := _imageToWidth r; _imageToHeight := _imageToHeight r;
     _sdfGamma := g; _sdfHalo := h;
     vertexBuffer := vertexBuffer r; drawElements := drawElements r |}.

(** [this._imageCount++] and the 36 stores at [this._vertexIndex++]. *)
Definition writeQuad (q : Quad) (r : SDFTextRenderer) : SDFTextRenderer :=
  {| _imageCount := _imageCount r + 1; _maxTextures := _maxTextures r;
     _textures := _textures r; _textureIndex := _textureIndex r;
     _textureToIndex := _textureToIndex r; _images := _images r;
     _vertexIndex := _vertexIndex r + 36;
     _imageToWidth := _imageToWidth r; _imageToHeight := _imageToHeight r;
     _sdfGamma := _sdfGamma r; _sdfHalo := _sdfHalo r;
     vertexBuffer := vertexBuffer r ++ [q]; drawElements := drawElements r |}.

(** The body of [for (const char of text)]. *)
Definition drawChar (font : SDFFont) (imageWidth imageHeight textureId : Z)
    (r : SDFTextRenderer) (char : JSString) : SDFTextRenderer :=
  let r := if _isFull r then flush r else r in
  match glyphs font !! char, glyphAtlasLocation font !! char with
  | Some glyph, Some (sx, sy) =>
      writeQuad {| q_char := char; q_sx := sx; q_sy := sy;
                   q_sw := width glyph; q_sh := height glyph;
                   q_imageWidth := imageWidth; q_imageHeight := imageHeight;
                   q_textureId := textureId;
                   q_image := canvas_id (atlasCanvas font);
                   q_gamma := gamma font; q_halo := halo font |} r
  | _, _ => r
  end.

(** [draw(font, text, pos, size, color)]. *)
Definition draw (font : SDFFont) (text : JSString) (r : SDFTextRenderer) : SDFTextRenderer :=
  let r := if _isFull r then flush r else r in
  let r :=
    if negb (Qeq_bool (_sdfGamma r) (gamma font)) || negb (Qeq_bool (_sdfHalo r) (halo font))
    then setShading (gamma font) (halo font) (flush r)
    else r in
  let r := _addImageAsTexture (atlasCanvas font) r in
  let '(maybeImageWidth, r) := _getImageWidth (atlasCanvas font) r in
  let '(maybeImageHeight, r) := _getImageHeight (atlasCanvas font) r in
  let textureId := _getTextureIdForImage (atlasCanvas font) r in
  fold_left (drawChar font maybeImageWidth maybeImageHeight textureId) (codePoints text) r.

(** The calls a frame makes on the renderer. *)
Inductive Call :=
  | CallDraw (font : SDFFont) (text : JSString)
  | CallFlush.

Definition call (r : SDFTextRenderer) (c : Call) : SDFTextRenderer :=
  match c with
  | CallDraw font text => draw font text r
  | CallFlush => flush r
  end.

Definition calls (cs : list Call) (r : SDFTextRenderer) : SDFTextRenderer :=
  fold_left call cs r.

(* ===================================================================== *)
(** ** What the properties are stated with *)
(* ===================================================================== *)

(** [constructed o P]: the construction [o] returned a font, and [P] holds
    of it. *)
Definition constructed (o : option (result SDFFont)) (P : SDFFont -> Prop) : Prop :=
  match o with
  | Some (Ok f) => P f
  | _ => False
  end.

(** The atlas rectangle of a code point: its recorded origin and the size
    of its bitmap. *)
Definition glyphRect (f : SDFFont) (codePoint : JSString) : option (Z * Z * Z * Z) :=
  match glyphAtlasLocation f !! codePoint, glyphs f !! codePoint with
  | Some (x, y), Some g => Some (x, y, width g, height g)
  | _, _ => None
  end.

Definition rectInCanvas (c : Canvas) (x y w h : Z) : bool :=
  (0 <=? x) && (0 <=? y) && (x + w <=? canvas_width c) && (y + h <=? canvas_height c).

Definition rectsDisjoint (x1 y1 w1 h1 x2 y2 w2 h2 : Z) : bool :=
  (x1 + w1 <=? x2) || (x2 + w2 <=? x1) || (y1 + h1 <=? y2) || (y2 + h2 <=? y1).

(** A bitmap as the rasterizer returns it: a positive size, one byte for
    each of its pixels. *)
Definition wfGlyph (g : SDFGlyph) : Prop :=
  0 < width g /\ 0 < height g
  /\ Z.of_nat (length (data g)) = width g * height g
  /\ Forall (fun b => 0 <= b <= 255) (data g).

(** The atlas pixel that stands for column [i], row [j] of a bitmap: the
    distance byte as red, green and blue, and an opaque alpha. *)
Definition glyphPixel (g : SDFGlyph) (i j : Z) : RGBA :=
  let d := nth (Z.to_nat (j * width g + i)) (data g) 0 in (d, d, d, 255).

(** The invariant of the packing loops at row origin [y], column [x] and
    running row height [mh]: every recorded rectangle starts at
    non-negative coordinates and lies above the current row, or in it to
    the left of the cursor and no taller than the row so far; and each of
    its pixels that is on the canvas is the bitmap's. *)
Definition shelved (glyphTable : gmap JSString SDFGlyph) (canvas : Canvas)
    (location : gmap JSString (Z * Z)) (y x mh : Z) : Prop :=
  forall cp px py,
    location !! cp = Some (px, py) ->
    exists g,
      glyphTable !! cp = Some g /\ 0 <= px /\ 0 <= py
      /\ (py + height g <= y \/ (py = y /\ px + width g <= x /\ height g <= mh))
      /\ forall i j,
           0 <= i < width g -> 0 <= j < height g ->
           inCanvas canvas (px + i) (py + j) = true ->
           pixels canvas (px + i) (py + j) = glyphPixel g i j.

(** No two recorded rectangles overlap. *)
Definition disjointAtlas (glyphTable : gmap JSString SDFGlyph)
    (location : gmap JSString (Z * Z)) : Prop :=
  forall cp1 cp2 x1 y1 x2 y2 g1 g2,
    cp1 <> cp2 ->
    location !! cp1 = Some (x1, y1) -> location !! cp2 = Some (x2, y2) ->
    glyphTable !! cp1 = Some g1 -> glyphTable !! cp2 = Some g2 ->
    rectsDisjoint x1 y1 (width g1) (height g1) x2 y2 (width g2) (height g2) = true.

(** The number of characters of [text] that [draw] finds in both tables
    of [font]. *)
Definition isPresent (font : SDFFont) (char : JSString) : bool :=
  bool_decide (is_Some (glyphs font !! char))
  && bool_decide (is_Some (glyphAtlasLocation font !! char)).

Definition presentGlyphs (font : SDFFont) (text : JSString) : Z :=
  Z.of_nat (length (filter (fun c => isPresent font c = true) (codePoints text))).

(** Quads handed to the GPU so far, and quads asked for by a list of calls. *)
Definition quadsDrawn (r : SDFTextRenderer) : Z :=
  foldr (fun dc n => Z.of_nat (length (dc_quads dc)) + n) 0 (drawElements r).

Definition quadsRequested (cs : list Call) : Z :=
  foldr (fun c n => match c with
                    | CallDraw font text => presentGlyphs font text + n
                    | CallFlush => n
                    end) 0 cs.

(** A quad's texture index names a unit of the draw call that holds the
    texture of the quad's own atlas image. *)
Definition slotPopulated (dc : DrawCall) (q : Quad) : bool :=
  bool_decide (0 <= q_textureId q
               /\ dc_units dc !! Z.to_nat (q_textureId q) = Some (Some (q_image q))).

(** The batch invariant: the counter is within capacity and counts the
    quads in the buffer, the write cursor is 36 numbers a quad, and every
    draw call issued covered at most the capacity, six indices a quad. *)
Definition batchInv (r : SDFTextRenderer) : Prop :=
  0 <= _imageCount r <= _maxImages
  /\ _imageCount r = Z.of_nat (length (vertexBuffer r))
  /\ _vertexIndex r = 36 * _imageCount r
  /\ Forall (fun dc => Z.of_nat (length (dc_quads dc)) <= _maxImages
                       /\ dc_indices dc = 6 * Z.of_nat (length (dc_quads dc)))
            (drawElements r).

(** The shading invariant: every quad in the buffer was emitted for a font
    whose gamma and halo are the renderer's current ones, and every quad of
    a draw call issued was emitted for the gamma and halo of that call. *)
Definition sameShading (g h : Q) (q : Quad) : Prop :=
  (q_gamma q == g)%Q /\ (q_halo q == h)%Q.

Definition shadingInv (r : SDFTextRenderer) : Prop :=
  Forall (sameShading (_sdfGamma r) (_sdfHalo r)) (vertexBuffer r)
  /\ Forall (fun dc => Forall (sameShading (dc_gamma dc) (dc_halo dc)) (dc_quads dc))
            (drawElements r).

(** [advances n r r']: from [r], a piece of the renderer's code reached
    [r'], keeping the invariant, only adding draw calls, and emitting [n]
    quads (drawn already or still pending). *)
Definition advances (n : Z) (r r' : SDFTextRenderer) : Prop :=
  batchInv r'
  /\ (exists new, drawElements r' = drawElements r ++ new)
  /\ quadsDrawn r' + _imageCount r' = quadsDrawn r + _imageCount r + n.

(* ===================================================================== *)
(** ** Concrete pages, fonts and frames used in the examples *)
(* ===================================================================== *)

(** A [w] x [h] bitmap as tiny-sdf returns it with the buffer of 13 the
    constructor asks for: the glyph box is the bitmap less the buffer on
    each side. *)
Definition bitmapGlyph (w h : Z) : SDFGlyph :=
  {| data := repeat 128 (Z.to_nat (w * h)); width := w; height := h;
     glyphWidth := w - 26; glyphHeight := h - 26; glyphTop := h - 26;
     glyphLeft := 0; glyphAdvance := w - 26 |}.

(** A page whose rasterizer draws ["A"] as [wa] x [ha] and everything
    else as [wb] x [hb]. *)
Definition page (id : nat) (wa ha wb hb : Z) : Browser :=
  {| createElement_canvas := Some id; getContext_2d := true;
     TinySDF_draw := fun _ codePoint =>
       if bool_decide (codePoint = [65]) then bitmapGlyph wa ha else bitmapGlyph wb hb |}.

Definition withAlphabet (alphabet : JSString) (size : option Z) : SDFFontOptions :=
  {| opt_fontWeight := Some 100; opt_fontStyle := None;
     opt_alphabet := Some alphabet; opt_fontSize := size |}.

Definition defaultOptions : SDFFontOptions :=
  {| opt_fontWeight := Some 100; opt_fontStyle := None;
     opt_alphabet := None; opt_fontSize := None |}.

(** The font ["A"] built on canvas number [id], its one glyph 100 x 100. *)
Definition fontA (id : nat) : option (result SDFFont) :=
  SDFFont_new 3 (page id 100 100 100 100) (withAlphabet [65] None).

(** All fonts of a list, when every construction returned one. *)
Fixpoint built (l : list (option (result SDFFont))) : option (list SDFFont) :=
  match l with
  | [] => Some []
  | Some (Ok f) :: l' => cons f <$> built l'
  | _ :: _ => None
  end.

(** The text of [n] letters A. *)
Definition lettersA (n : Z) : JSString := repeat 65 (Z.to_nat n).

(** A context with 16 texture units on which every test shader compiles. *)
Definition gl16 : WebGL := {| MAX_TEXTURE_IMAGE_UNITS := 16; compiles := fun _ => true |}.

(** The fonts ["A"] on canvases 1 to [n]. *)
Definition fontsA (n : nat) : list SDFFont := default [] (built (map fontA (seq 1 n))).

(** The renderer of a context with 16 texture units. *)
Definition renderer16 : SDFTextRenderer := default (newRenderer 0) (initialize 1 gl16).

(* ===================================================================== *)
(** ** SDFTextRenderer: the rest of the class *)
(* ===================================================================== *)

(** [hasPendingDraws]. *)
Definition hasPendingDraws (r : SDFTextRenderer) : bool := negb (_imageCount r =? 0).

(** The size of the vertex buffer [initialize] allocates, in numbers:
    [9 * 4 * this._maxImages]. *)
Definition vertexBufferSize : Z := 9 * 4 * _maxImages.

(** Every quad the renderer was given, oldest first: those of the draw
    calls issued, then those still in the buffer. *)
Definition emitted (r : SDFTextRenderer) : list Quad :=
  concat (map dc_quads (drawElements r)) ++ vertexBuffer r.

(** The atlas rectangle a quad's UV pairs are made of. *)
Definition quadSource (q : Quad) : Z * Z * Z * Z := (q_sx q, q_sy q, q_sw q, q_sh q).

(** The invariant of the texture tables: [_textures] lists distinct
    textures, [_textureIndex] is their number, [_textureToIndex] sends each
    to its position and nothing else anywhere, and [_images] holds the
    images they were loaded from. *)
Definition textureInv (r : SDFTextRenderer) : Prop :=
  _textureIndex r = Z.of_nat (length (_textures r))
  /\ NoDup (_textures r)
  /\ (forall t i, _textureToIndex r !! t = Some i
                  <-> 0 <= i /\ _textures r !! Z.to_nat i = Some t)
  /\ (forall t, t ∈ _images r <-> t ∈ _textures r).



(** What the frame properties are stated with. *)




(** The quad [draw] writes for a character, when it finds the character in
    both tables of the font. *)
Definition quadFor (font : SDFFont) (imageWidth imageHeight textureId : Z)
    (char : JSString) : option Quad :=
  match glyphs font !! char, glyphAtlasLocation font !! char with
  | Some glyph, Some (sx, sy) =>
      Some {| q_char := char; q_sx := sx; q_sy := sy;
              q_sw := width glyph; q_sh := height glyph;
              q_imageWidth := imageWidth; q_imageHeight := imageHeight;
              q_textureId := textureId;
              q_image := canvas_id (atlasCanvas font);
              q_gamma := gamma font; q_halo := halo font |}
  | _, _ => None
  end.

(* --------------------------------------------------------------------- *)
(* SDFFont: the lines of a text (_getLinesFromText, measureText).        *)
(* --------------------------------------------------------------------- *)

(** What [lines.join('\n')] gives. *)
Fixpoint join_newline (lines : list JSString) : JSString :=
  match lines with
  | [] => []
  | [line] => line
  | line :: rest => line ++ 10 :: join_newline rest
  end.

(** [text.split('\n')]: the pieces between the line feeds (code unit 10);
    a text without line feed is its one piece. *)
Fixpoint split_newline (text : JSString) : list JSString :=
  match text with
  | [] => [[]]
  | u :: rest =>
      if u =? 10 then [] :: split_newline rest
      else match split_newline rest with
           | line :: lines => (u :: line) :: lines
           | [] => [[u]]
           end
  end.

(** The engine's [BoundingBox]: four edges, and [get width()]. *)
Record BoundingBox := {
  bb_left : Z;
  bb_top : Z;
  bb_right : Z;
  bb_bottom : Z
}.

Definition bb_width (b : BoundingBox) : Z := bb_right b - bb_left b.

(** [measureText]: whatever the text, [new BoundingBox()]; the box the
    engine's constructor makes is the parameter [emptyBox]. *)
Definition measureText (emptyBox : BoundingBox) (text : JSString) : BoundingBox := emptyBox.

(** The three private fields [_getLinesFromText] reads and writes. *)
Record LineCache := {
  _cachedText : option JSString;
  _cachedLines : option (list JSString);
  _cachedRenderWidth : option Z
}.

Definition noLineCache : LineCache :=
  {| _cachedText := None; _cachedLines := None; _cachedRenderWidth := None |}.

(** The string ["undefined"], what [line[line.length - 1] + newLine]
    prepends once [line] is empty. *)
Definition undefinedString : JSString := [117; 110; 100; 101; 102; 105; 110; 101; 100].

(** [line[line.length - 1]] as it enters a string concatenation. *)
Definition lastCharacter (line : JSString) : JSString :=
  match last line with
  | Some u => [u]
  | None => undefinedString
  end.

(** The [while] loop of [_getLinesFromText], one unit of fuel per test:
    the last character moves from [line] to the front of [newLine]. *)
Fixpoint shrinkLine (fuel : nat) (emptyBox : BoundingBox) (maxWidth : Z)
    (line newLine : JSString) : option (JSString * JSString) :=
  match fuel with
  | O => None
  | S fuel' =>
      if maxWidth <? bb_width (measureText emptyBox line)
      then shrinkLine fuel' emptyBox maxWidth (removelast line) (lastCharacter line ++ newLine)
      else Some (line, newLine)
  end.

(** [lines[j] = v] for [j] up to the length of the array: the element is
    replaced, or the array grows by one. *)
Definition arraySet (j : nat) (v : JSString) (lines : list JSString) : list JSString :=
  if decide (j < length lines)%nat then <[j := v]> lines else lines ++ [v].

(** The [for] loop of [_getLinesFromText] from index [i], one unit of
    fuel per test. *)
Fixpoint wrapLines (fuel : nat) (emptyBox : BoundingBox) (maxWidth : Z) (i : nat)
    (lines : list JSString) : option (list JSString) :=
  match fuel with
  | O => None
  | S fuel' =>
      match lines !! i with
      | None => Some lines
      | Some line =>
          if maxWidth <? bb_width (measureText emptyBox line) then
            match shrinkLine fuel' emptyBox maxWidth line [] with
            | None => None
            | Some (line', newLine) =>
                wrapLines fuel' emptyBox maxWidth (S i)
                          (arraySet (S i) newLine (<[i := line']> lines))
            end
          else wrapLines fuel' emptyBox maxWidth (S i) lines
      end
  end.

(** [_getLinesFromText(text, maxWidth)]: the lines, and the cache after
    the call. *)
Definition _getLinesFromText (fuel : nat) (emptyBox : BoundingBox) (text : JSString)
    (maxWidth : option Z) (c : LineCache) : option (list JSString * LineCache) :=
  if bool_decide (_cachedText c = Some text)
     && bool_decide (_cachedRenderWidth c = maxWidth)
     && match _cachedLines c with Some (_ :: _) => true | _ => false end
  then Some (default [] (_cachedLines c), c)
  else
    let lines := split_newline text in
    match maxWidth with
    | None => Some (lines, c)
    | Some w =>
        match wrapLines fuel emptyBox w 0 lines with
        | None => None
        | Some lines' =>
            Some (lines', {| _cachedText := Some text; _cachedLines := Some lines';
                             _cachedRenderWidth := Some w |})
        end
    end.

(* --------------------------------------------------------------------- *)
(* The earlier SDFFont constructor kept in the same source (lines 818-899). *)
(* --------------------------------------------------------------------- *)

(** A [Map] with its insertion order, as [Array.from(map.entries())] shows
    it: setting a key that is present replaces the value in place. *)
Fixpoint mapSet {V : Type} (k : JSString) (v : V) (m : list (JSString * V))
  : list (JSString * V) :=
  match m with
  | [] => [(k, v)]
  | (k', v') :: m' =>
      if bool_decide (k = k') then (k, v) :: m' else (k', v') :: mapSet k v m'
  end.

(** "Generate sdf atlas data", with the order of the entries. *)
Definition generateGlyphEntries (draw : JSString -> SDFGlyph) (cps : list JSString)
  : list (JSString * SDFGlyph) :=
  fold_left (fun m codePoint => mapSet codePoint (draw codePoint) m) cps [].

(** The alphabet the earlier constructor uses when the options give none. *)
Definition defaultAlphabet0 : JSString :=
  [97; 98; 99; 100; 101; 102; 103; 104; 105; 106; 107; 108; 109; 110; 111; 112; 113;
   114; 115; 116; 117; 118; 119; 120; 121; 122; 126; 33; 64; 35; 36; 37; 94; 38; 42;
   40; 41; 60; 62; 63; 39; 34; 58; 59; 65; 66; 67; 68; 69; 70; 71; 72; 73; 74; 75;
   76; 77; 78; 79; 80; 81; 82; 83; 84; 85; 86; 87; 88; 89; 90; 49; 50; 51; 52; 53;
   54; 55; 56; 57; 48; 123; 125; 92; 124].

(** The state of its two loops: the canvas, the location table, the
    entries from index [i] on, and the step of both cursors. *)
Record Atlas0 := {
  a0_canvas : Canvas;
  a0_location : gmap JSString (Z * Z);
  a0_next : list (JSString * SDFGlyph);
  a0_currentSize : Z
}.

(** Its inner loop, entered with column [x] in row [y]. *)
Fixpoint packRow0 (y x currentSize : Z) (next : list (JSString * SDFGlyph))
    (canvas : Canvas) (location : gmap JSString (Z * Z)) : Atlas0 :=
  match next with
  | (codePoint, glyph) :: next' =>
      if x + currentSize <=? canvas_width canvas then
        let currentSize := Z.max (width glyph) (height glyph) in
        let canvas :=
          putImageData (_makeRGBAImageData (data glyph) (width glyph) (height glyph))
                       x y canvas in
        let location := <[codePoint := (x, y)]> location in
        packRow0 y (x + currentSize) currentSize next' canvas location
      else {| a0_canvas := canvas; a0_location := location; a0_next := next;
              a0_currentSize := currentSize |}
  | [] => {| a0_canvas := canvas; a0_location := location; a0_next := [];
             a0_currentSize := currentSize |}
  end.

(** Its outer loop, entered with row origin [y]; one unit of fuel per
    test of its condition. *)
Fixpoint packRows0 (fuel : nat) (y : Z) (a : Atlas0) : option Atlas0 :=
  match fuel with
  | O => None
  | S fuel' =>
      if (y + a0_currentSize a <=? canvas_height (a0_canvas a))
         && negb (bool_decide (a0_next a = []))
      then
        let a' := packRow0 y 0 (a0_currentSize a) (a0_next a) (a0_canvas a)
                           (a0_location a) in
        packRows0 fuel' (y + a0_currentSize a') a'
      else Some a
  end.

(** The fields of the earlier class. *)
Record SDFFont0 := {
  atlasCanvas0 : Canvas;
  glyphs0 : list (JSString * SDFGlyph);
  glyphAtlasLocation0 : gmap JSString (Z * Z)
}.

(** The earlier [new SDFFont(options)]. *)
Definition SDFFont0_new (fuel : nat) (env : Browser) (options : SDFFontOptions)
  : option (result SDFFont0) :=
  match createElement_canvas env with
  | None => Some (Throw (Error "Cannot Build SDF Font Atlas Canvas"))
  | Some id =>
      if negb (getContext_2d env)
      then Some (Throw (Error "Cannot Build SDF Font Atlas Context"))
      else
        let fontSize := default 16 (opt_fontSize options) in
        let fontWeight := default "100"%string (toString <$> opt_fontWeight options) in
        let fontStyle := default "normal"%string (opt_fontStyle options) in
        let alphabet := default defaultAlphabet0 (opt_alphabet options) in
        let buffer := ceilDiv fontSize 8 in
        let radius := ceilDiv fontSize 3 in
        let size := fontSize + buffer * 2 in
        let dimension := ceilSqrt (js_length alphabet) * size in
        let canvas := setHeight dimension (setWidth dimension (createCanvas id)) in
        let tinySdf :=
          TinySDF_draw env {| tiny_fontSize := fontSize; tiny_fontStyle := fontStyle;
                              tiny_fontWeight := fontWeight; tiny_buffer := buffer;
                              tiny_radius := radius |} in
        let codePoints := generateGlyphEntries tinySdf (codePoints alphabet) in
        match codePoints with
        | [] => Some (Throw TypeError)
        | (_, glyph) :: _ =>
            let currentSize := Z.max (width glyph) (height glyph) in
            match packRows0 fuel 0 {| a0_canvas := canvas; a0_location := ∅;
                                      a0_next := codePoints;
                                      a0_currentSize := currentSize |} with
            | None => None
            | Some a =>
                Some (Ok {| atlasCanvas0 := a0_canvas a; glyphs0 := codePoints;
                            glyphAtlasLocation0 := a0_location a |})
            end
        end
  end.

(* --------------------------------------------------------------------- *)
(* What the further properties are stated with.                          *)
(* --------------------------------------------------------------------- *)

(** A cache that is empty, or holds a text with the lines it splits into. *)
Definition coherentCache (c : LineCache) : Prop :=
  c = noLineCache
  \/ exists text w,
       c = {| _cachedText := Some text; _cachedLines := Some (split_newline text);
              _cachedRenderWidth := Some w |}.

(** The count the complexity search tries after [k] failures. *)
Definition halved (k : nat) (numIfs : Z) : Z :=
  Nat.iter k (fun n => toInt32 (Z.quot n 2)) numIfs.

(** A bitmap with a positive side. *)
Definition positiveSize (g : SDFGlyph) : Prop := 0 < Z.max (width g) (height g).


(* ===================================================================== *)
(** * Properties *)
(* ===================================================================== *)

(* --------------------------------------------------------------------- *)
(** ** The string iterator *)
(* --------------------------------------------------------------------- *)

Lemma codePoints_nil : codePoints [] = [].
Proof. reflexivity. Qed.

Lemma codePoints_one u : codePoints [u] = [[u]].
Proof. reflexivity. Qed.

Lemma codePoints_pair u v rest :
  isLeadSurrogate u && isTrailSurrogate v = true ->
  codePoints (u :: v :: rest) = [u; v] :: codePoints rest.
Proof. intros H. simpl. rewrite H. reflexivity. Qed.

Lemma codePoints_unit u v rest :
  isLeadSurrogate u && isTrailSurrogate v = false ->
  codePoints (u :: v :: rest) = [u] :: codePoints (v :: rest).
Proof. intros H. simpl. rewrite H. reflexivity. Qed.

(** Induction that follows the iterator: one or two code units a step. *)
Lemma codePoints_ind (P : JSString -> Prop) :
  P [] ->
  (forall u, P [u]) ->
  (forall u v rest,
      isLeadSurrogate u && isTrailSurrogate v = true -> P rest -> P (u :: v :: rest)) ->
  (forall u v rest,
      isLeadSurrogate u && isTrailSurrogate v = false -> P (v :: rest) -> P (u :: v :: rest)) ->
  forall s, P s.
Proof.
  intros Hnil Hone Hpair Hunit s.
  assert (H : forall n (t : JSString), (length t <= n)%nat -> P t).
  { induction n as [|n IH]; intros t Hlen.
    - destruct t; [exact Hnil | simpl in Hlen; lia].
    - destruct t as [|u [|v rest]]; [exact Hnil | apply Hone |].
      destruct (isLeadSurrogate u && isTrailSurrogate v) eqn:E.
      + apply Hpair; [exact E | apply IH; simpl in Hlen; lia].
      + apply Hunit; [exact E | apply IH; simpl in *; lia]. }
  apply (H (length s)). lia.
Qed.

(** The iterator loses no code unit. *)
Lemma codePoints_concat s : concat (codePoints s) = s.
Proof.
  induction s as [| u | u v rest E IH | u v rest E IH] using codePoints_ind.
  - reflexivity.
  - reflexivity.
  - rewrite codePoints_pair by exact E. simpl. by rewrite IH.
  - rewrite codePoints_unit by exact E. simpl. simpl in IH. by rewrite IH.
Qed.

(** What the iterator yields is one code unit, or a surrogate pair. *)
Lemma codePoints_shape s cp :
  cp ∈ codePoints s ->
  (exists u, cp = [u])
  \/ (exists u v, cp = [u; v] /\ isLeadSurrogate u = true /\ isTrailSurrogate v = true).
Proof.
  induction s as [| u | u v rest E IH | u v rest E IH] using codePoints_ind; intros Hin.
  - inversion Hin.
  - rewrite codePoints_one in Hin. apply list_elem_of_singleton in Hin. left. by exists u.
  - rewrite codePoints_pair in Hin by exact E.
    apply elem_of_cons in Hin as [-> | Hin]; [| by apply IH].
    right. exists u, v. apply andb_true_iff in E. tauto.
  - rewrite codePoints_unit in Hin by exact E.
    apply elem_of_cons in Hin as [-> | Hin]; [| by apply IH].
    left. by exists u.
Qed.

(** Iterating a string the iterator yielded gives that string back, whole. *)
Lemma codePoints_idem s cp : cp ∈ codePoints s -> codePoints cp = [cp].
Proof.
  intros Hin. destruct (codePoints_shape s cp Hin) as [[u ->] | (u & v & -> & Hu & Hv)].
  - reflexivity.
  - rewrite codePoints_pair by (by rewrite Hu, Hv). reflexivity.
Qed.

(** The iterator yields at most as many code points as there are code
    units. *)
Lemma codePoints_length s : (length (codePoints s) <= length s)%nat.
Proof.
  induction s as [| u | u v rest E IH | u v rest E IH] using codePoints_ind.
  - reflexivity.
  - reflexivity.
  - rewrite codePoints_pair by exact E. cbn [length]. lia.
  - rewrite codePoints_unit by exact E. cbn [length] in *. lia.
Qed.

(* --------------------------------------------------------------------- *)
(** ** The glyph table *)
(* --------------------------------------------------------------------- *)

Lemma generateGlyphs_fold (draw : JSString -> SDFGlyph) (cps : list JSString)
    (m : gmap JSString SDFGlyph) (cp : JSString) :
  fold_left (fun m codePoint => <[codePoint := draw codePoint]> m) cps m !! cp
  = if bool_decide (cp ∈ cps) then Some (draw cp) else m !! cp.
Proof.
  revert m. induction cps as [|c cps IH]; intros m.
  - cbn [fold_left]. case_bool_decide as H; [by apply elem_of_nil in H | done].
  - cbn [fold_left]. rewrite IH.
    repeat case_bool_decide; try done.
    + rewrite elem_of_cons in *. tauto.
    + rewrite elem_of_cons in *.
      destruct (decide (cp = c)) as [-> | Hne]; [by rewrite lookup_insert_eq | tauto].
    + rewrite lookup_insert_ne; [done |]. rewrite elem_of_cons in *. intros ->. tauto.
Qed.

Lemma generateGlyphs_lookup draw (cps : list JSString) (cp : JSString) :
  cp ∈ cps -> generateGlyphs draw cps !! cp = Some (draw cp).
Proof.
  intros Hin. unfold generateGlyphs. rewrite generateGlyphs_fold.
  by rewrite bool_decide_eq_true_2.
Qed.

Lemma generateGlyphs_lookup_Some draw (cps : list JSString) (cp : JSString) g :
  generateGlyphs draw cps !! cp = Some g -> cp ∈ cps /\ g = draw cp.
Proof.
  unfold generateGlyphs. rewrite generateGlyphs_fold.
  case_bool_decide; [| by rewrite lookup_empty].
  intros [= <-]. done.
Qed.

(* --------------------------------------------------------------------- *)
(** ** What the constructor returns *)
(* --------------------------------------------------------------------- *)

(** A returned font has the fields the constructor computes before the
    packing loops, and the canvas and location table the loops end with. *)
Lemma SDFFont_new_Ok fuel env options f :
  SDFFont_new fuel env options = Some (Ok f) ->
  exists id tinyOptions a,
    let alphabet := default defaultAlphabet (opt_alphabet options) in
    let dimension := ceilSqrt (js_length alphabet) * 126 in
    createElement_canvas env = Some id
    /\ tiny_fontSize tinyOptions = 100 /\ tiny_buffer tinyOptions = 13
    /\ tiny_radius tinyOptions = 34
    /\ glyphs f = generateGlyphs (TinySDF_draw env tinyOptions) (codePoints alphabet)
    /\ buildAtlas fuel (glyphs f) (codePoints alphabet)
         (setHeight dimension (setWidth dimension (createCanvas id))) = Some (Ok a)
    /\ atlasCanvas f = at_canvas a
    /\ glyphAtlasLocation f = at_location a
    /\ _fontSize f = default 16 (opt_fontSize options)
    /\ _buffer f = 13 /\ _radius f = 34 /\ _size f = 126.
Proof.
  unfold SDFFont_new. intros H.
  destruct (createElement_canvas env) as [id|]; [| discriminate].
  destruct (getContext_2d env); [| discriminate]. cbn [negb] in H.
  match type of H with
  | match buildAtlas ?fu ?gt ?cps ?cv with _ => _ end = _ =>
      destruct (buildAtlas fu gt cps cv) as [[a|e]|] eqn:E; [| discriminate..]
  end.
  injection H as <-. eexists id, _, a. cbn [atlasCanvas glyphs glyphAtlasLocation
    _fontSize _buffer _radius _size tiny_fontSize tiny_buffer tiny_radius].
  repeat split; try reflexivity. exact E.
Qed.

(* --------------------------------------------------------------------- *)
(** ** The derived parameters *)
(* --------------------------------------------------------------------- *)

(** C3.  Inside the constructor the name [fontSize] is the module constant
    100, not [options.fontSize]: a font asked for at size 16 with the
    alphabet ["AB"] keeps 16 as its font size but gets buffer 13, radius 34,
    cell size 126 and a 252 x 252 canvas, where the formulas applied to 16
    give 2, 6, 20 and 40. *)
Theorem constructor_ignores_requested_font_size :
  constructed (SDFFont_new 5 (page 1 100 100 100 100) (withAlphabet [65; 66] (Some 16)))
    (fun f =>
       _fontSize f = 16 /\ _buffer f = 13 /\ _radius f = 34 /\ _size f = 126
       /\ canvas_width (atlasCanvas f) = 252 /\ canvas_height (atlasCanvas f) = 252
       /\ ceilDiv 16 8 = 2 /\ ceilDiv 16 3 = 6 /\ 16 + 2 * 2 = 20
       /\ ceilSqrt 2 * 20 = 40).
Proof. by vm_compute. Qed.

(** The canvas side is computed from [alphabet.length], the number of
    code units: four emoji outside the BMP are eight code units and four
    glyphs, and the canvas is 3 cells a side, not 2. *)
Lemma canvas_side_counts_code_units :
  constructed (SDFFont_new 5 (page 1 100 100 100 100)
                 (withAlphabet [55356; 57270; 55356; 57225; 55356; 57218; 55356; 57217]
                               None))
    (fun f =>
       length (codePoints [55356; 57270; 55356; 57225; 55356; 57218; 55356; 57217])
       = 4%nat
       /\ canvas_width (atlasCanvas f) = 3 * 126
       /\ ceilSqrt 4 * 126 = 2 * 126).
Proof. by vm_compute. Qed.

(* --------------------------------------------------------------------- *)
(** ** One character of a draw *)
(* --------------------------------------------------------------------- *)

Lemma drawChar_present font w h t r c g x y :
  glyphs font !! c = Some g ->
  glyphAtlasLocation font !! c = Some (x, y) ->
  drawChar font w h t r c
  = writeQuad {| q_char := c; q_sx := x; q_sy := y; q_sw := width g; q_sh := height g;
                 q_imageWidth := w; q_imageHeight := h; q_textureId := t;
                 q_image := canvas_id (atlasCanvas font);
                 q_gamma := gamma font; q_halo := halo font |}
              (if _isFull r then flush r else r).
Proof. intros Hg Hl. unfold drawChar. by rewrite Hg, Hl. Qed.

Lemma drawChar_absent font w h t r c :
  glyphs font !! c = None \/ glyphAtlasLocation font !! c = None ->
  drawChar font w h t r c = if _isFull r then flush r else r.
Proof.
  intros [H | H]; unfold drawChar; rewrite H; [done |].
  by destruct (glyphs font !! c).
Qed.

(** A draw is its preamble, then the loop over the text's code points. *)
Lemma draw_loop font text r :
  exists w h t r',
    draw font text r = fold_left (drawChar font w h t) (codePoints text) r'.
Proof.
  unfold draw.
  destruct (_getImageWidth _ _) as [w r1].
  destruct (_getImageHeight _ _) as [h r2].
  by eexists w, h, _, r2.
Qed.

(** C4, as amended.  Both loops iterate by Unicode code point.  Every code
    point of the alphabet is one key of the glyph table, holding what the
    rasterizer drew for it; the key is one code unit, or the two code units
    of a surrogate pair; used as a text, it is iterated as that one key,
    and when the packing loop gave it a location a draw of it emits its
    quad.  (A character made of several code points has one key for each of
    them.) *)
Theorem code_point_round_trip fuel env options f :
  SDFFont_new fuel env options = Some (Ok f) ->
  exists tinyOptions,
    forall cp : JSString,
      cp ∈ codePoints (default defaultAlphabet (opt_alphabet options)) ->
      glyphs f !! cp = Some (TinySDF_draw env tinyOptions cp)
      /\ ((exists u, cp = [u])
          \/ (exists u v, cp = [u; v]
                          /\ isLeadSurrogate u = true /\ isTrailSurrogate v = true))
      /\ codePoints cp = [cp]
      /\ forall r x y,
           glyphAtlasLocation f !! cp = Some (x, y) ->
           exists q,
             last (vertexBuffer (draw f cp r)) = Some q
             /\ q_char q = cp /\ q_sx q = x /\ q_sy q = y
             /\ q_sw q = width (TinySDF_draw env tinyOptions cp)
             /\ q_sh q = height (TinySDF_draw env tinyOptions cp).
Proof.
  intros Hnew.
  destruct (SDFFont_new_Ok _ _ _ _ Hnew) as (id & tinyOptions & a & H).
  cbv zeta in H. destruct H as (_ & _ & _ & _ & Hglyphs & _).
  exists tinyOptions. intros cp Hin.
  assert (Hg : glyphs f !! cp = Some (TinySDF_draw env tinyOptions cp)).
  { rewrite Hglyphs. by apply generateGlyphs_lookup. }
  split; [exact Hg |]. split; [by eapply codePoints_shape |].
  split; [by eapply codePoints_idem |].
  intros r x y Hloc.
  destruct (draw_loop f cp r) as (w & h & t & r' & ->).
  rewrite (codePoints_idem _ _ Hin). cbn [fold_left].
  rewrite (drawChar_present _ _ _ _ _ _ _ _ _ Hg Hloc).
  eexists. unfold writeQuad; cbn [vertexBuffer]. rewrite last_snoc.
  split; [reflexivity |]. by cbn.
Qed.

(** The default alphabet on a page that draws every glyph 30 x 30: its
    first character, the musical notes U+1F3B6, is the surrogate pair
    D83C DFB6. *)
Lemma code_point_round_trip_witness :
  exists f,
    SDFFont_new 20 (page 1 30 30 30 30) defaultOptions = Some (Ok f)
    /\ is_Some (glyphs f !! [55356; 57270])
    /\ codePoints [55356; 57270] = [[55356; 57270]].
Proof.
  remember (SDFFont_new 20 (page 1 30 30 30 30) defaultOptions) as o eqn:E.
  assert (H : constructed o (fun _ => True)) by (rewrite E; by vm_compute).
  destruct o as [[f|]|]; [| destruct H..]. symmetry in E.
  exists f. split; [reflexivity |].
  destruct (code_point_round_trip _ _ _ _ E) as [tinyOptions Hcp].
  destruct (Hcp [55356; 57270]) as (Hg & _ & Hidem & _).
  { vm_compute. apply list_elem_of_here. }
  split; [by rewrite Hg | exact Hidem].
Defined.

(** C4, as stated, fails on the default alphabet: the red heart is U+2764
    followed by the variation selector U+FE0F.  The table has no key for
    the two together; it has one key for each. *)
Lemma heart_with_variation_selector_is_two_keys :
  constructed (SDFFont_new 20 (page 1 30 30 30 30) defaultOptions)
    (fun f =>
       glyphs f !! [10084; 65039] = None
       /\ glyphAtlasLocation f !! [10084; 65039] = None
       /\ is_Some (glyphs f !! [10084]) /\ is_Some (glyphs f !! [65039])
       /\ codePoints [10084; 65039] = [[10084]; [65039]]).
Proof.
  vm_compute. repeat split; eauto.
Qed.

(* --------------------------------------------------------------------- *)
(** ** Typed arrays and the RGBA expansion *)
(* --------------------------------------------------------------------- *)

Lemma ta_length_set i v a : ta_length (ta_set i v a) = ta_length a.
Proof. unfold ta_set. by destruct (_ && _). Qed.

Lemma ta_get_set_ne i v a k : k <> i -> ta_get (ta_set i v a) k = ta_get a k.
Proof.
  intros Hne. unfold ta_set. destruct (_ && _); [| reflexivity]. cbn.
  destruct (Z.eqb_spec k i); [contradiction | reflexivity].
Qed.

Lemma ta_get_set_eq i v a :
  0 <= i < ta_length a -> ta_get (ta_set i v a) i = clampByte v.
Proof.
  intros Hi. unfold ta_set.
  rewrite (proj2 (Z.leb_le _ _)), (proj2 (Z.ltb_lt _ _)) by lia. cbn.
  by rewrite Z.eqb_refl.
Qed.

Lemma clampByte_byte b : 0 <= b <= 255 -> clampByte b = b.
Proof. unfold clampByte. lia. Qed.

Lemma ta_length_storeRGBA i a d : ta_length (storeRGBA i a d) = ta_length d.
Proof. unfold storeRGBA. by rewrite !ta_length_set. Qed.

Lemma ta_get_storeRGBA_other i a d k :
  k < 4 * i \/ 4 * i + 3 < k -> ta_get (storeRGBA i a d) k = ta_get d k.
Proof. intros Hk. unfold storeRGBA. rewrite !ta_get_set_ne by lia. reflexivity. Qed.

Lemma ta_get_storeRGBA i a d c :
  0 <= 4 * i -> 4 * i + 3 < ta_length d -> 0 <= a <= 255 -> 0 <= c < 4 ->
  ta_get (storeRGBA i a d) (4 * i + c) = if c =? 3 then 255 else a.
Proof.
  intros Hi Hlen Ha Hc. unfold storeRGBA.
  assert (E : c = 0 \/ c = 1 \/ c = 2 \/ c = 3) by lia.
  destruct E as [-> | [-> | [-> | ->]]]; cbn [Z.eqb].
  - rewrite !ta_get_set_ne by lia. rewrite ta_get_set_eq by lia. by apply clampByte_byte.
  - rewrite !ta_get_set_ne by lia.
    rewrite ta_get_set_eq by (rewrite !ta_length_set; lia). by apply clampByte_byte.
  - rewrite !ta_get_set_ne by lia.
    rewrite ta_get_set_eq by (rewrite !ta_length_set; lia). by apply clampByte_byte.
  - rewrite ta_get_set_eq by (rewrite !ta_length_set; lia). reflexivity.
Qed.

Lemma ta_length_fillRGBA alpha i d : ta_length (fillRGBA alpha i d) = ta_length d.
Proof.
  revert i d. induction alpha as [|a alpha IH]; intros i d; [reflexivity |].
  cbn [fillRGBA]. by rewrite IH, ta_length_storeRGBA.
Qed.

Lemma ta_get_fillRGBA_below alpha i d k :
  k < 4 * i -> ta_get (fillRGBA alpha i d) k = ta_get d k.
Proof.
  revert i d. induction alpha as [|a alpha IH]; intros i d Hk; [reflexivity |].
  cbn [fillRGBA]. rewrite IH by lia. apply ta_get_storeRGBA_other. lia.
Qed.

(** After the loop, the four bytes of output pixel [i + n] are the [n]-th
    input byte three times, then 255. *)
Lemma ta_get_fillRGBA alpha i d n c :
  0 <= i -> 4 * (i + Z.of_nat (length alpha)) <= ta_length d ->
  Forall (fun b => 0 <= b <= 255) alpha ->
  (n < length alpha)%nat -> 0 <= c < 4 ->
  ta_get (fillRGBA alpha i d) (4 * (i + Z.of_nat n) + c)
  = if c =? 3 then 255 else nth n alpha 0.
Proof.
  revert i d n. induction alpha as [|a alpha IH]; intros i d n Hi Hlen Hbytes Hn Hc;
    [cbn in Hn; lia |].
  cbn [fillRGBA]. cbn [length] in Hlen, Hn.
  apply Forall_cons in Hbytes as [Ha Hbytes].
  destruct n as [|n].
  - rewrite ta_get_fillRGBA_below by lia.
    replace (4 * (i + Z.of_nat 0) + c) with (4 * i + c) by lia.
    rewrite ta_get_storeRGBA by lia. reflexivity.
  - replace (4 * (i + Z.of_nat (S n)) + c) with (4 * (i + 1 + Z.of_nat n) + c) by lia.
    rewrite IH; [reflexivity | lia | rewrite ta_length_storeRGBA; lia | done | lia | done].
Qed.

(** The image handed to [putImageData] is the bitmap, pixel for pixel. *)
Lemma imagePixel_makeRGBAImageData g i j :
  wfGlyph g -> 0 <= i < width g -> 0 <= j < height g ->
  imagePixel (_makeRGBAImageData (data g) (width g) (height g)) i j = glyphPixel g i j.
Proof.
  intros (Hw & Hh & Hlen & Hbytes) Hi Hj.
  unfold imagePixel, glyphPixel, _makeRGBAImageData, newImageData.
  cbn [img_width img_height img_data].
  assert (Hn : 0 <= j * width g + i < width g * height g) by nia.
  set (n := Z.to_nat (j * width g + i)).
  assert (En : j * width g + i = Z.of_nat n) by (subst n; lia).
  rewrite En.
  assert (Hget : forall c, 0 <= c < 4 ->
    ta_get (fillRGBA (data g) 0 (newUint8ClampedArray (4 * width g * height g)))
           (4 * Z.of_nat n + c)
    = if c =? 3 then 255 else nth n (data g) 0).
  { intros c Hc.
    replace (4 * Z.of_nat n + c) with (4 * (0 + Z.of_nat n) + c) by lia.
    apply ta_get_fillRGBA; [lia | cbn [ta_length newUint8ClampedArray]; lia
                           | exact Hbytes | lia | exact Hc]. }
  pose proof (Hget 0 ltac:(lia)) as H0. rewrite Z.add_0_r in H0.
  rewrite H0, (Hget 1), (Hget 2), (Hget 3) by lia. reflexivity.
Qed.

(* --------------------------------------------------------------------- *)
(** ** The packing loops: shelves *)
(* --------------------------------------------------------------------- *)

Lemma rectsDisjoint_true x1 y1 w1 h1 x2 y2 w2 h2 :
  rectsDisjoint x1 y1 w1 h1 x2 y2 w2 h2 = true
  <-> x1 + w1 <= x2 \/ x2 + w2 <= x1 \/ y1 + h1 <= y2 \/ y2 + h2 <= y1.
Proof. unfold rectsDisjoint. rewrite !orb_true_iff, !Z.leb_le. tauto. Qed.

Lemma inCanvas_putImageData img dx dy c x y :
  inCanvas (putImageData img dx dy c) x y = inCanvas c x y.
Proof. reflexivity. Qed.

Lemma pixels_putImageData_inside img dx dy c x y :
  inCanvas c x y = true ->
  dx <= x < dx + img_width img -> dy <= y < dy + img_height img ->
  pixels (putImageData img dx dy c) x y = imagePixel img (x - dx) (y - dy).
Proof.
  intros Hin Hx Hy. cbn [pixels putImageData]. rewrite Hin.
  by rewrite !(proj2 (Z.leb_le _ _)), !(proj2 (Z.ltb_lt _ _)) by lia.
Qed.

Lemma pixels_putImageData_outside img dx dy c x y :
  x < dx \/ dx + img_width img <= x \/ y < dy \/ dy + img_height img <= y ->
  pixels (putImageData img dx dy c) x y = pixels c x y.
Proof.
  intros Hout. cbn [pixels putImageData].
  destruct (inCanvas c x y); [| reflexivity]. cbn [andb].
  destruct (Z.leb_spec dx x); [| reflexivity].
  destruct (Z.ltb_spec x (dx + img_width img)); [| reflexivity].
  destruct (Z.leb_spec dy y); [| reflexivity].
  destruct (Z.ltb_spec y (dy + img_height img)); [lia | reflexivity].
Qed.

Section Shelves.
Variable glyphTable : gmap JSString SDFGlyph.
Hypothesis glyphs_wf : forall cp g, glyphTable !! cp = Some g -> wfGlyph g.

(** One round of the inner loop keeps the invariant. *)
Lemma shelved_place canvas location y x mh codePoint g :
  shelved glyphTable canvas location y x mh ->
  glyphTable !! codePoint = Some g ->
  0 <= x -> 0 <= y ->
  shelved glyphTable
    (putImageData (_makeRGBAImageData (data g) (width g) (height g)) x y canvas)
    (<[codePoint := (x, y)]> location) y (x + width g) (Z.max mh (height g)).
Proof.
  intros Hinv Hg Hx Hy cp px py Hloc.
  pose proof (glyphs_wf _ _ Hg) as Hwf.
  destruct (decide (cp = codePoint)) as [-> | Hne].
  - rewrite lookup_insert_eq in Hloc. injection Hloc as <- <-.
    exists g. split; [exact Hg |]. split; [exact Hx |]. split; [exact Hy |].
    split; [right; lia |].
    intros i j Hi Hj Hin. rewrite inCanvas_putImageData in Hin.
    rewrite pixels_putImageData_inside by (cbn [img_width img_height _makeRGBAImageData
                                                  newImageData]; first [exact Hin | lia]).
    replace (x + i - x) with i by lia. replace (y + j - y) with j by lia.
    by apply imagePixel_makeRGBAImageData.
  - rewrite lookup_insert_ne in Hloc by done.
    destruct (Hinv _ _ _ Hloc) as (g' & Hg' & Hpx & Hpy & Hregion & Hpix).
    destruct Hwf as (Hw & Hh & _).
    exists g'. split; [exact Hg' |]. split; [exact Hpx |]. split; [exact Hpy |].
    split; [destruct Hregion as [? | (? & ? & ?)]; [left; lia | right; lia] |].
    intros i j Hi Hj Hin. rewrite inCanvas_putImageData in Hin.
    rewrite pixels_putImageData_outside; [by apply Hpix |].
    destruct Hregion as [? | (? & ? & ?)]; lia.
Qed.

Lemma disjoint_place canvas location y x mh codePoint g :
  shelved glyphTable canvas location y x mh ->
  disjointAtlas glyphTable location ->
  glyphTable !! codePoint = Some g ->
  disjointAtlas glyphTable (<[codePoint := (x, y)]> location).
Proof.
  intros Hinv Hdis Hg cp1 cp2 x1 y1 x2 y2 g1 g2 Hne H1 H2 Hg1 Hg2.
  apply rectsDisjoint_true.
  destruct (decide (cp1 = codePoint)) as [-> | Hne1];
    destruct (decide (cp2 = codePoint)) as [-> | Hne2]; [done | | |].
  - rewrite lookup_insert_eq in H1. injection H1 as <- <-.
    rewrite lookup_insert_ne in H2 by done.
    destruct (Hinv _ _ _ H2) as (g' & Hg' & _ & _ & Hregion & _).
    rewrite Hg2 in Hg'. injection Hg' as <-.
    destruct Hregion as [? | (? & ? & ?)]; lia.
  - rewrite lookup_insert_eq in H2. injection H2 as <- <-.
    rewrite lookup_insert_ne in H1 by done.
    destruct (Hinv _ _ _ H1) as (g' & Hg' & _ & _ & Hregion & _).
    rewrite Hg1 in Hg'. injection Hg' as <-.
    destruct Hregion as [? | (? & ? & ?)]; lia.
  - rewrite lookup_insert_ne in H1 by done.
    rewrite lookup_insert_ne in H2 by done.
    apply rectsDisjoint_true. exact (Hdis _ _ _ _ _ _ _ _ Hne H1 H2 Hg1 Hg2).
Qed.

(** Moving to the next row: what was in the row is now above it. *)
Lemma shelved_next_row canvas location y x mh :
  shelved glyphTable canvas location y x mh -> 0 <= mh ->
  shelved glyphTable canvas location (y + mh) 0 0.
Proof.
  intros Hinv Hmh cp px py Hloc.
  destruct (Hinv _ _ _ Hloc) as (g & Hg & Hpx & Hpy & Hregion & Hpix).
  exists g. split; [exact Hg |]. split; [exact Hpx |]. split; [exact Hpy |].
  split; [| exact Hpix].
  left. destruct Hregion as [? | (? & ? & ?)]; lia.
Qed.

Lemma packRow_shelved y next :
  forall x cs mh canvas location a,
    0 <= y -> 0 <= x -> 0 <= mh ->
    shelved glyphTable canvas location y x mh ->
    disjointAtlas glyphTable location ->
    packRow glyphTable y x cs mh next canvas location = Ok a ->
    exists x',
      0 <= at_maxHeight a
      /\ shelved glyphTable (at_canvas a) (at_location a) y x' (at_maxHeight a)
      /\ disjointAtlas glyphTable (at_location a)
      /\ canvas_width (at_canvas a) = canvas_width canvas
      /\ canvas_height (at_canvas a) = canvas_height canvas.
Proof.
  induction next as [|codePoint next IH];
    intros x cs mh canvas location a Hy Hx Hmh Hinv Hdis Hrow.
  - injection Hrow as <-. by exists x.
  - cbn [packRow] in Hrow.
    destruct (x + cs <=? canvas_width canvas); [| injection Hrow as <-; by exists x].
    destruct (glyphTable !! codePoint) as [g|] eqn:Hg; [| discriminate].
    pose proof (glyphs_wf _ _ Hg) as (Hw & Hh & _).
    apply IH in Hrow as (x' & H1 & H2 & H3 & H4 & H5);
      [by exists x' | lia | lia | lia | by apply shelved_place
      | by eapply disjoint_place].
Qed.

Lemma packRows_shelved fuel :
  forall y a a',
    0 <= y ->
    shelved glyphTable (at_canvas a) (at_location a) y 0 0 ->
    disjointAtlas glyphTable (at_location a) ->
    packRows fuel glyphTable y a = Some (Ok a') ->
    exists y',
      shelved glyphTable (at_canvas a') (at_location a') y' 0 0
      /\ disjointAtlas glyphTable (at_location a')
      /\ canvas_width (at_canvas a') = canvas_width (at_canvas a)
      /\ canvas_height (at_canvas a') = canvas_height (at_canvas a).
Proof.
  induction fuel as [|fuel IH]; intros y a a' Hy Hinv Hdis Hrows; [discriminate |].
  cbn [packRows] in Hrows.
  destruct (_ && _); [| injection Hrows as <-; by exists y].
  destruct (packRow _ _ _ _ _ _ _ _) as [a1|e] eqn:Hrow; [| discriminate].
  apply packRow_shelved in Hrow as (x' & Hmh & Hinv1 & Hdis1 & Hw1 & Hh1);
    [| lia | lia | lia | exact Hinv | exact Hdis].
  apply IH in Hrows as (y' & H1 & H2 & H3 & H4);
    [| lia | by eapply shelved_next_row | exact Hdis1].
  exists y'. rewrite H3, H4. done.
Qed.

Lemma buildAtlas_shelved fuel cps canvas a :
  buildAtlas fuel glyphTable cps canvas = Some (Ok a) ->
  exists y,
    shelved glyphTable (at_canvas a) (at_location a) y 0 0
    /\ disjointAtlas glyphTable (at_location a)
    /\ canvas_width (at_canvas a) = canvas_width canvas
    /\ canvas_height (at_canvas a) = canvas_height canvas.
Proof.
  assert (Hempty : shelved glyphTable canvas ∅ 0 0 0).
  { intros cp px py Hloc. by rewrite lookup_empty in Hloc. }
  assert (Hdis : disjointAtlas glyphTable ∅).
  { intros cp1 cp2 x1 y1 x2 y2 g1 g2 _ Hloc. by rewrite lookup_empty in Hloc. }
  unfold buildAtlas. destruct cps as [|c cps].
  - intros [= <-]. by exists 0.
  - intros Hrows. by apply packRows_shelved in Hrows.
Qed.
End Shelves.

Lemma wfGlyph_bitmapGlyph w h : 0 < w -> 0 < h -> wfGlyph (bitmapGlyph w h).
Proof.
  intros Hw Hh. unfold wfGlyph, bitmapGlyph. cbn [width height data].
  split; [exact Hw |]. split; [exact Hh |]. split.
  - rewrite repeat_length. nia.
  - apply Forall_forall. intros b Hb%list_elem_of_In%repeat_spec. lia.
Qed.

(** What a returned font's atlas satisfies when the rasterizer returns
    well-formed bitmaps. *)
Lemma SDFFont_new_shelved fuel env options f :
  SDFFont_new fuel env options = Some (Ok f) ->
  (forall tinyOptions cp, wfGlyph (TinySDF_draw env tinyOptions cp)) ->
  exists y,
    shelved (glyphs f) (atlasCanvas f) (glyphAtlasLocation f) y 0 0
    /\ disjointAtlas (glyphs f) (glyphAtlasLocation f).
Proof.
  intros Hnew Hwf.
  destruct (SDFFont_new_Ok _ _ _ _ Hnew) as (id & tinyOptions & a & H).
  cbv zeta in H.
  destruct H as (_ & _ & _ & _ & Hglyphs & Hbuild & Hcanvas & Hloc & _).
  apply buildAtlas_shelved in Hbuild as (y & Hinv & Hdis & _).
  - exists y. rewrite Hcanvas, Hloc. done.
  - intros cp g Hg. rewrite Hglyphs in Hg.
    apply generateGlyphs_lookup_Some in Hg as [_ ->]. apply Hwf.
Qed.

(** X1.  The rectangles a returned font records never overlap one another,
    whatever the widths and heights of the bitmaps, as long as every bitmap
    has positive sides and one byte a pixel. *)
Lemma placed_rectangles_disjoint fuel env options f :
  SDFFont_new fuel env options = Some (Ok f) ->
  (forall tinyOptions cp, wfGlyph (TinySDF_draw env tinyOptions cp)) ->
  disjointAtlas (glyphs f) (glyphAtlasLocation f).
Proof.
  intros Hnew Hwf. by destruct (SDFFont_new_shelved _ _ _ _ Hnew Hwf) as (y & _ & Hdis).
Qed.

(* --------------------------------------------------------------------- *)
(** ** The packing loops: the bounds test *)
(* --------------------------------------------------------------------- *)

(** C1.  The constructor's bounds test compares the column cursor with the
    width of the glyph placed before, not of the glyph about to be placed.
    For the alphabet ["AB"] with a 100 x 100 bitmap for A and a 165 x 100
    bitmap for B, on the 252 x 252 canvas the constructor computes, B is
    recorded at (100, 0): its rectangle ends at column 265, outside the
    canvas, although both glyphs would fit on two shelves. *)
Theorem atlas_rectangle_outside_canvas :
  constructed (SDFFont_new 5 (page 1 100 100 165 100) (withAlphabet [65; 66] None))
    (fun f =>
       canvas_width (atlasCanvas f) = 252 /\ canvas_height (atlasCanvas f) = 252
       /\ glyphRect f [65] = Some (0, 0, 100, 100)
       /\ glyphRect f [66] = Some (100, 0, 165, 100)
       /\ rectInCanvas (atlasCanvas f) 100 0 165 100 = false).
Proof. by vm_compute. Qed.

(* --------------------------------------------------------------------- *)
(** ** The packing loops: progress, and the end without an error *)
(* --------------------------------------------------------------------- *)

Lemma packRows_S fuel glyphTable y a :
  packRows (S fuel) glyphTable y a
  = if (y + at_maxHeight a <=? canvas_height (at_canvas a))
       && negb (bool_decide (at_next a = []))
    then match packRow glyphTable y 0 (at_currentSize a) 0
                       (at_next a) (at_canvas a) (at_location a) with
         | Throw e => Some (Throw e)
         | Ok a' => packRows fuel glyphTable (y + at_maxHeight a') a'
         end
    else Some (Ok a).
Proof. reflexivity. Qed.

(** The location table is unchanged when no code point was placed. *)
Ltac nothing_placed :=
  let cp := fresh "cp" in
  let Hq := fresh "Hq" in
  intros cp; split; [by left | intros [Hq | Hq]; [done | inversion Hq]].

Section Progress.
Variable glyphTable : gmap JSString SDFGlyph.

(** The inner loop returns; it has taken a prefix of the code points it
    was given, recorded exactly those, and left the canvas its size.
    Its step is then the width of a glyph it placed, if it placed any,
    and it places at least one when the first test succeeds. *)
Lemma packRow_progress y (next : list JSString) :
  forall x cs mh canvas (location : gmap JSString (Z * Z)),
    (forall cp, cp ∈ next -> is_Some (glyphTable !! cp)) ->
    exists a placed,
      packRow glyphTable y x cs mh next canvas location = Ok a
      /\ next = placed ++ at_next a
      /\ (forall cp, is_Some (at_location a !! cp)
                     <-> is_Some (location !! cp) \/ cp ∈ placed)
      /\ canvas_width (at_canvas a) = canvas_width canvas
      /\ canvas_height (at_canvas a) = canvas_height canvas
      /\ (placed = [] /\ at_currentSize a = cs
          \/ exists cp g, cp ∈ placed /\ glyphTable !! cp = Some g
                          /\ at_currentSize a = width g)
      /\ (next <> [] -> x + cs <= canvas_width canvas -> placed <> []).
Proof.
  induction next as [|c next IH]; intros x cs mh canvas location Hin.
  - eexists _, []. cbn [packRow at_next at_location at_canvas at_currentSize].
    repeat split; try done; [intros H; by left | intros [H | H]; [done | inversion H]
                            | by left].
  - cbn [packRow].
    destruct (Z.leb_spec (x + cs) (canvas_width canvas)) as [Hfit | Hfull].
    + destruct (Hin c) as [g Hg]; [by left |]. rewrite Hg.
      edestruct (IH (x + width g) (width g) (Z.max mh (height g))
                    (putImageData (_makeRGBAImageData (data g) (width g) (height g))
                                  x y canvas)
                    (<[c := (x, y)]> location))
        as (a & placed & Hrow & Hnext & Hloc & Hw & Hh & Hcs & _);
        [intros cp Hcp; apply Hin; by right |].
      exists a, (c :: placed). rewrite Hrow.
      split; [reflexivity |]. split; [by rewrite Hnext at 1 |].
      split.
      { intros cp. rewrite Hloc, lookup_insert_is_Some, elem_of_cons.
        destruct (decide (c = cp)); intuition. }
      split; [exact Hw |]. split; [exact Hh |].
      split; [| done].
      right. destruct Hcs as [[-> Hcs] | (cp & g' & Hcp & Hg' & Hcs)].
      * exists c, g. split; [by left | done].
      * exists cp, g'. split; [by right | done].
    + eexists _, []. cbn [at_next at_location at_canvas at_currentSize].
      repeat split; try done; [intros H; by left | intros [H | H]; [done | inversion H]
                              | by left | lia].
Qed.

(** The outer loop raises nothing. *)
Lemma packRows_no_throw fuel :
  forall y a e,
    (forall cp, cp ∈ at_next a -> is_Some (glyphTable !! cp)) ->
    packRows fuel glyphTable y a <> Some (Throw e).
Proof.
  induction fuel as [|fuel IH]; intros y a e Hin; [discriminate |].
  cbn [packRows]. destruct (_ && _); [| discriminate].
  destruct (packRow_progress y (at_next a) 0 (at_currentSize a) 0
              (at_canvas a) (at_location a) Hin)
    as (a1 & placed & -> & Hnext & _).
  apply IH. intros cp Hcp. apply Hin. rewrite Hnext. apply elem_of_app. by right.
Qed.

(** When no glyph is wider than the canvas every row takes a glyph, and
    the outer loop returns within as many tests as there are code points
    left, and one more. *)
Lemma packRows_progress (n : nat) :
  forall y a,
    (length (at_next a) <= n)%nat ->
    at_currentSize a <= canvas_width (at_canvas a) ->
    (forall cp, cp ∈ at_next a ->
                exists g, glyphTable !! cp = Some g
                          /\ width g <= canvas_width (at_canvas a)) ->
    exists a' placed,
      packRows (S n) glyphTable y a = Some (Ok a')
      /\ at_next a = placed ++ at_next a'
      /\ (forall cp, is_Some (at_location a' !! cp)
                     <-> is_Some (at_location a !! cp) \/ cp ∈ placed).
Proof.
  induction n as [|n IH]; intros y a Hlen Hcs Hin.
  - destruct a as [canvas location next cs mh]. cbn [at_next] in *.
    destruct next; [| cbn in Hlen; lia].
    eexists _, []. cbn [packRows at_next]. rewrite bool_decide_eq_true_2 by done.
    rewrite andb_false_r. split; [reflexivity |]. split; [reflexivity |].
    nothing_placed.
  - rewrite packRows_S.
    destruct (Z.leb_spec (y + at_maxHeight a) (canvas_height (at_canvas a)));
      [| eexists _, []; split; [reflexivity |]; split; [reflexivity |];
         nothing_placed].
    case_bool_decide as Hnil;
      [eexists _, []; split; [reflexivity |]; split; [reflexivity |];
       nothing_placed |].
    cbn [negb andb].
    destruct (packRow_progress y (at_next a) 0 (at_currentSize a) 0
                (at_canvas a) (at_location a))
      as (a1 & placed1 & -> & Hnext & Hloc & Hw & Hh & Hstep & Hsome);
      [intros cp Hcp; destruct (Hin cp Hcp) as (g & -> & _); eauto |].
    specialize (Hsome Hnil ltac:(lia)).
    assert (Hlen1 : (length (at_next a1) <= n)%nat).
    { rewrite Hnext, length_app in Hlen. destruct placed1; [done | cbn in Hlen; lia]. }
    destruct (IH (y + at_maxHeight a1) a1 Hlen1) as (a' & placed2 & Hrows & Hnext2 & Hloc2).
    + rewrite Hw. destruct Hstep as [[-> _] | (cp & g & Hcp & Hg & ->)]; [done |].
      destruct (Hin cp) as (g' & Hg' & Hle);
        [rewrite Hnext; apply elem_of_app; by left |].
      rewrite Hg in Hg'. by injection Hg' as <-.
    + intros cp Hcp. rewrite Hw. apply Hin. rewrite Hnext. apply elem_of_app. by right.
    + exists a', (placed1 ++ placed2). rewrite Hrows.
      split; [reflexivity |]. split; [by rewrite Hnext, Hnext2 at 1; rewrite app_assoc |].
      intros cp. rewrite Hloc2, Hloc, elem_of_app. tauto.
Qed.
End Progress.

(* --------------------------------------------------------------------- *)
(** ** The packing loops: bitmaps within the cell *)
(* --------------------------------------------------------------------- *)

(** [Math.ceil(Math.sqrt(n))] squared is at least [n]. *)
Lemma ceilSqrt_square n : 0 <= n -> n <= ceilSqrt n * ceilSqrt n.
Proof.
  intros Hn. unfold ceilSqrt. destruct (decide (n = 0)) as [-> | Hne]; [reflexivity |].
  apply (Z.sqrt_up_spec n). lia.
Qed.

Lemma ceilSqrt_nonneg n : 0 <= ceilSqrt n.
Proof. apply Z.sqrt_up_nonneg. Qed.

Section Cell.
Variable glyphTable : gmap JSString SDFGlyph.
Variables s k : Z.
Hypothesis s_nonneg : 0 <= s.
Hypothesis k_nonneg : 0 <= k.
Hypothesis cell : forall cp g, glyphTable !! cp = Some g -> width g <= s /\ height g <= s.

(** On a canvas [k] cells wide, a row that has [m] glyphs so far goes on
    until it has [k] or the code points are used up; its two steps stay
    within the cell. *)
Lemma packRow_cell y (next : list JSString) :
  forall x cs mh canvas (location : gmap JSString (Z * Z)) m a,
    canvas_width canvas = k * s -> cs <= s -> mh <= s -> x <= m * s ->
    packRow glyphTable y x cs mh next canvas location = Ok a ->
    at_currentSize a <= s /\ at_maxHeight a <= s
    /\ (at_next a = []
        \/ k <= m + (Z.of_nat (length next) - Z.of_nat (length (at_next a)))).
Proof.
  induction next as [|c next IH]; intros x cs mh canvas location m a HW Hcs Hmh Hx Hrow;
    cbn [packRow] in Hrow.
  - injection Hrow as <-. cbn [at_currentSize at_maxHeight at_next]. by auto.
  - destruct (Z.leb_spec (x + cs) (canvas_width canvas)) as [Hfit | Hfull].
    + destruct (glyphTable !! c) as [g|] eqn:Hg; [| discriminate].
      destruct (cell c g Hg) as [Hgw Hgh].
      apply (IH _ _ _ _ _ (m + 1)) in Hrow as (H1 & H2 & H3);
        [| exact HW | exact Hgw | lia | lia].
      split; [exact H1 |]. split; [exact H2 |].
      destruct H3 as [H3 | H3]; [by left | right]. cbn [length]. lia.
    + injection Hrow as <-. cbn [at_currentSize at_maxHeight at_next].
      split; [exact Hcs |]. split; [exact Hmh |]. right.
      rewrite HW in Hfull. nia.
Qed.

(** On a square canvas of [k] by [k] cells, with at most [k * k] code
    points in all, the outer loop returns only when every code point has
    its location: after [r] rows, [r * k] code points are placed and the
    row origin is at most [r] cells down. *)
Lemma packRows_cell fuel :
  forall y a a' r,
    (forall cp, cp ∈ at_next a -> is_Some (glyphTable !! cp)) ->
    canvas_width (at_canvas a) = k * s ->
    canvas_height (at_canvas a) = k * s ->
    at_currentSize a <= s -> at_maxHeight a <= s ->
    0 <= r -> y <= r * s ->
    (at_next a = [] \/ Z.of_nat (length (at_next a)) + r * k <= k * k) ->
    packRows fuel glyphTable y a = Some (Ok a') ->
    at_next a' = []
    /\ forall cp, is_Some (at_location a !! cp) \/ cp ∈ at_next a ->
                  is_Some (at_location a' !! cp).
Proof.
  induction fuel as [|fuel IH]; intros y a a' r Hin HW HH Hcs Hmh Hr Hy Hcount Hrun;
    [discriminate |].
  rewrite packRows_S in Hrun.
  destruct (Z.leb_spec (y + at_maxHeight a) (canvas_height (at_canvas a))) as [Hroom | Hend].
  - case_bool_decide as Hnil; cbn [negb andb] in Hrun.
    + injection Hrun as <-. split; [exact Hnil |].
      intros cp [H | H]; [exact H | rewrite Hnil in H; inversion H].
    + destruct (packRow_progress glyphTable y (at_next a) 0 (at_currentSize a) 0
                  (at_canvas a) (at_location a) Hin)
        as (a1 & placed & Hrow & Hnext & Hloc & Hw & Hh & _).
      rewrite Hrow in Hrun.
      destruct (packRow_cell y (at_next a) 0 (at_currentSize a) 0 (at_canvas a)
                  (at_location a) 0 a1 HW Hcs s_nonneg ltac:(lia) Hrow)
        as (Hcs1 & Hmh1 & Hk).
      assert (Hy1 : y + at_maxHeight a1 <= (r + 1) * s) by lia.
      assert (Hcount1 : at_next a1 = []
                        \/ Z.of_nat (length (at_next a1)) + (r + 1) * k <= k * k).
      { destruct Hk as [Hk | Hk]; [by left | right].
        destruct Hcount as [Hcount | Hcount]; [done | lia]. }
      assert (Hin1 : forall cp, cp ∈ at_next a1 -> is_Some (glyphTable !! cp)).
      { intros cp Hcp. apply Hin. rewrite Hnext. apply elem_of_app. by right. }
      rewrite <- Hw in HW. rewrite <- Hh in HH.
      destruct (IH _ _ _ (r + 1) Hin1 HW HH Hcs1 Hmh1 ltac:(lia) Hy1 Hcount1 Hrun)
        as [Hdone Hall].
      split; [exact Hdone |]. intros cp Hcp. apply Hall.
      rewrite Hloc. rewrite Hnext, elem_of_app in Hcp. tauto.
  - cbn [andb] in Hrun. injection Hrun as <-.
    destruct (at_next a) as [|c next] eqn:Enext.
    + split; [reflexivity |]. intros cp [H | H]; [exact H | inversion H].
    + exfalso. destruct Hcount as [Hcount | Hcount]; [discriminate |].
      cbn [length] in Hcount. rewrite HH in Hend.
      assert (Hrows : k <= r).
      { destruct (Z.le_gt_cases k r) as [? | Hlt]; [done | exfalso].
        assert ((r + 1) * s <= k * s) by (apply Z.mul_le_mono_nonneg_r; lia). lia. }
      assert (k * k <= r * k) by (apply Z.mul_le_mono_nonneg_r; lia). lia.
Qed.
End Cell.

(** With bitmaps within the 126 x 126 cell, a returned font has a location
    for every code point of its alphabet. *)
Lemma SDFFont_new_cell fuel env options f :
  SDFFont_new fuel env options = Some (Ok f) ->
  (forall tinyOptions cp,
      width (TinySDF_draw env tinyOptions cp) <= 126
      /\ height (TinySDF_draw env tinyOptions cp) <= 126) ->
  forall cp : JSString,
    cp ∈ codePoints (default defaultAlphabet (opt_alphabet options)) ->
    is_Some (glyphAtlasLocation f !! cp).
Proof.
  intros Hnew Hcell cp Hcp.
  destruct (SDFFont_new_Ok _ _ _ _ Hnew) as (id & tinyOptions & a & H).
  cbv zeta in H. destruct H as (_ & _ & _ & _ & Hglyphs & Hbuild & _ & Hloc & _).
  set (alphabet := default defaultAlphabet (opt_alphabet options)) in *.
  unfold buildAtlas in Hbuild.
  destruct (codePoints alphabet) as [|c cps] eqn:Ecps; [inversion Hcp |].
  rewrite <- Ecps in *. rewrite Hloc.
  pose proof (codePoints_length alphabet) as Hlen.
  pose proof (ceilSqrt_square (js_length alphabet) ltac:(unfold js_length; lia)) as Hsq.
  unfold js_length in Hsq.
  assert (Hcellg : forall cp' g, glyphs f !! cp' = Some g -> width g <= 126 /\ height g <= 126).
  { intros cp' g Hg. rewrite Hglyphs in Hg.
    apply generateGlyphs_lookup_Some in Hg as [_ ->]. apply Hcell. }
  eapply (packRows_cell (glyphs f) 126 (ceilSqrt (js_length alphabet)) ltac:(lia)
            (ceilSqrt_nonneg _) Hcellg fuel 0 _ a 0) in Hbuild as [_ Hall];
    cbn [at_next at_canvas at_currentSize at_maxHeight at_location setHeight setWidth
         canvas_width canvas_height]; try lia; try reflexivity.
  - apply Hall. by right.
  - intros cp' Hcp'. rewrite Hglyphs, generateGlyphs_lookup by exact Hcp'. eauto.
  - right. unfold js_length. lia.
Qed.

(* --------------------------------------------------------------------- *)
(** ** The packing loops: the lookup round trip *)
(* --------------------------------------------------------------------- *)

(** C5, as amended.  In a returned font every code point of the alphabet
    has its entry in the glyph table, and, when every bitmap is within the
    126 x 126 cell the canvas is sized by, its entry in the location table
    as well.  Every code point that has an entry in the location table,
    that is, every one the packing loops reached, has its glyph, a location
    at non-negative coordinates, and on the atlas canvas every pixel of its
    rectangle that lies on the canvas is the bitmap's byte, as red = green
    = blue = byte and alpha = 255: the whole bitmap, byte for byte, when
    the rectangle is inside the canvas. *)
Theorem atlas_lookup_round_trip fuel env options f :
  SDFFont_new fuel env options = Some (Ok f) ->
  (forall tinyOptions cp, wfGlyph (TinySDF_draw env tinyOptions cp)) ->
  (forall cp : JSString,
      cp ∈ codePoints (default defaultAlphabet (opt_alphabet options)) ->
      is_Some (glyphs f !! cp))
  /\ ((forall tinyOptions cp,
          width (TinySDF_draw env tinyOptions cp) <= 126
          /\ height (TinySDF_draw env tinyOptions cp) <= 126) ->
      forall cp : JSString,
        cp ∈ codePoints (default defaultAlphabet (opt_alphabet options)) ->
        is_Some (glyphAtlasLocation f !! cp))
  /\ forall (cp : JSString) x y,
       glyphAtlasLocation f !! cp = Some (x, y) ->
       exists g,
         glyphs f !! cp = Some g /\ 0 <= x /\ 0 <= y
         /\ (forall i j,
                0 <= i < width g -> 0 <= j < height g ->
                inCanvas (atlasCanvas f) (x + i) (y + j) = true ->
                pixels (atlasCanvas f) (x + i) (y + j) = glyphPixel g i j)
         /\ (rectInCanvas (atlasCanvas f) x y (width g) (height g) = true ->
             forall i j,
               0 <= i < width g -> 0 <= j < height g ->
               pixels (atlasCanvas f) (x + i) (y + j) = glyphPixel g i j).
Proof.
  intros Hnew Hwf. split.
  - intros cp Hin.
    destruct (SDFFont_new_Ok _ _ _ _ Hnew) as (id & tinyOptions & a & H).
    cbv zeta in H. destruct H as (_ & _ & _ & _ & Hglyphs & _).
    rewrite Hglyphs, generateGlyphs_lookup by exact Hin. eauto.
  - split; [intros Hcell; by apply (SDFFont_new_cell _ _ _ _ Hnew) |].
    intros cp x y Hloc.
    destruct (SDFFont_new_shelved _ _ _ _ Hnew Hwf) as (y0 & Hinv & _).
    destruct (Hinv _ _ _ Hloc) as (g & Hg & Hx & Hy & _ & Hpix).
    exists g. split; [exact Hg |]. split; [exact Hx |]. split; [exact Hy |].
    split; [exact Hpix |].
    intros Hrect i j Hi Hj. apply Hpix; [exact Hi | exact Hj |].
    unfold rectInCanvas in Hrect. unfold inCanvas.
    repeat (apply andb_true_iff in Hrect as [Hrect ?]).
    rewrite !andb_true_iff, !Z.leb_le, !Z.ltb_lt. rewrite !Z.leb_le in *. lia.
Qed.

(** The alphabet ["AB"] with 30 x 30 bitmaps: both letters have their
    location, A is at the origin, and the atlas pixel (3, 4) is pixel
    (3, 4) of its bitmap. *)
Lemma atlas_lookup_round_trip_witness :
  exists f g,
    SDFFont_new 5 (page 1 30 30 30 30) (withAlphabet [65; 66] None) = Some (Ok f)
    /\ glyphs f !! [65] = Some g
    /\ is_Some (glyphAtlasLocation f !! [66])
    /\ pixels (atlasCanvas f) (0 + 3) (0 + 4) = glyphPixel g 3 4.
Proof.
  remember (SDFFont_new 5 (page 1 30 30 30 30) (withAlphabet [65; 66] None)) as o eqn:E.
  assert (H : constructed o (fun f =>
                glyphAtlasLocation f !! [65] = Some (0, 0)
                /\ width <$> glyphs f !! [65] = Some 30
                /\ height <$> glyphs f !! [65] = Some 30
                /\ inCanvas (atlasCanvas f) (0 + 3) (0 + 4) = true))
    by (rewrite E; by vm_compute).
  destruct o as [[f|]|]; [| destruct H..]. cbn [constructed] in H. symmetry in E.
  destruct H as (Hloc & Hw & Hh & Hin).
  assert (Hwf : forall tinyOptions cp,
             wfGlyph (TinySDF_draw (page 1 30 30 30 30) tinyOptions cp)).
  { intros tinyOptions cp. cbn [TinySDF_draw page].
    destruct (bool_decide _); apply wfGlyph_bitmapGlyph; lia. }
  destruct (atlas_lookup_round_trip _ _ _ _ E Hwf) as (_ & Hall & Hplaced).
  destruct (Hplaced _ _ _ Hloc) as (g & Hg & _ & _ & Hpix & _).
  exists f, g. split; [reflexivity |]. split; [exact Hg |].
  split.
  { apply Hall; [| apply list_elem_of_further, list_elem_of_here].
    intros tinyOptions cp. cbn [TinySDF_draw page]. destruct (bool_decide _); cbn; lia. }
  rewrite Hg in Hw, Hh. cbn in Hw, Hh. injection Hw as Hw. injection Hh as Hh.
  apply Hpix; [lia | lia | exact Hin].
Defined.

(** C5, as stated, fails for the alphabet ["AB"] with 165 x 165 bitmaps,
    larger than the cell: A fills the only row of the 252 x 252 canvas
    that can hold a glyph, the loops end without B, and B, a code point of
    the alphabet with its entry in the glyph table, has no entry in the
    location table. *)
Lemma unplaced_code_point_has_no_location :
  constructed (SDFFont_new 5 (page 1 165 165 165 165) (withAlphabet [65; 66] None))
    (fun f =>
       codePoints [65; 66] = [[65]; [66]]
       /\ width <$> glyphs f !! [66] = Some 165
       /\ glyphAtlasLocation f !! [65] = Some (0, 0)
       /\ glyphAtlasLocation f !! [66] = None).
Proof. by vm_compute. Qed.

(* --------------------------------------------------------------------- *)
(** ** The constructor around the loops *)
(* --------------------------------------------------------------------- *)

(** With a canvas and its context, the constructor's answer is that of the
    packing loops on the canvas and glyph table it has made. *)
Lemma SDFFont_new_atlas fuel env options id :
  createElement_canvas env = Some id -> getContext_2d env = true ->
  exists tinyOptions,
    let alphabet := default defaultAlphabet (opt_alphabet options) in
    let dimension := ceilSqrt (js_length alphabet) * 126 in
    let glyphTable := generateGlyphs (TinySDF_draw env tinyOptions) (codePoints alphabet) in
    let atlas := buildAtlas fuel glyphTable (codePoints alphabet)
                   (setHeight dimension (setWidth dimension (createCanvas id))) in
    (forall e, SDFFont_new fuel env options = Some (Throw e) -> atlas = Some (Throw e))
    /\ (forall a, atlas = Some (Ok a) ->
          exists f, SDFFont_new fuel env options = Some (Ok f)
                    /\ glyphs f = glyphTable
                    /\ atlasCanvas f = at_canvas a
                    /\ glyphAtlasLocation f = at_location a).
Proof.
  intros Hc Hx. unfold SDFFont_new. rewrite Hc, Hx. cbn [negb].
  eexists. cbv zeta.
  match goal with
  | |- context [match buildAtlas ?fu ?gt ?cps ?cv with _ => _ end] =>
      destruct (buildAtlas fu gt cps cv) as [[a|e]|] eqn:E
  end.
  - split; [discriminate |]. intros a' Ha'.
    pose proof (eq_trans (eq_sym E) Ha') as [= <-].
    eexists. split; [reflexivity |]. done.
  - split; [intros e' [= <-]; exact E |]. intros a' Ha'.
    pose proof (eq_trans (eq_sym E) Ha') as [=].
  - split; [discriminate |]. intros a' Ha'.
    pose proof (eq_trans (eq_sym E) Ha') as [=].
Qed.

(** The loops raise nothing, whatever the canvas and the bitmaps. *)
Lemma buildAtlas_no_throw fuel draw (cps : list JSString) canvas e :
  buildAtlas fuel (generateGlyphs draw cps) cps canvas <> Some (Throw e).
Proof.
  unfold buildAtlas. destruct cps as [|c cps'] eqn:Ecps; [discriminate |].
  rewrite <- Ecps. apply packRows_no_throw. cbn [at_next]. intros cp Hcp.
  rewrite generateGlyphs_lookup by exact Hcp. eauto.
Qed.

(** When no bitmap is wider than the canvas the loops return, with a
    location for each code point of a prefix of those given and for no
    other. *)
Lemma buildAtlas_returns draw (cps : list JSString) canvas :
  0 <= canvas_width canvas ->
  (forall cp, cp ∈ cps -> width (draw cp) <= canvas_width canvas) ->
  exists a placed,
    buildAtlas (S (length cps)) (generateGlyphs draw cps) cps canvas = Some (Ok a)
    /\ cps = placed ++ at_next a
    /\ forall cp, is_Some (at_location a !! cp) <-> cp ∈ placed.
Proof.
  intros HW Hwide. unfold buildAtlas. destruct cps as [|c cps'] eqn:Ecps.
  - eexists _, []. split; [reflexivity |]. split; [reflexivity |].
    intros cp. cbn [at_location]. rewrite lookup_empty.
    split; [by intros [? ?] | inversion 1].
  - rewrite <- Ecps in *.
    edestruct (packRows_progress (generateGlyphs draw cps) (length cps) 0
                 {| at_canvas := canvas; at_location := ∅; at_next := cps;
                    at_currentSize := 0; at_maxHeight := 0 |})
      as (a & placed & Hrows & Hnext & Hloc); [done | exact HW | |].
    + cbn [at_next at_canvas]. intros cp Hcp. exists (draw cp).
      split; [by apply generateGlyphs_lookup | by apply Hwide].
    + exists a, placed. split; [exact Hrows |]. split; [exact Hnext |].
      intros cp. rewrite Hloc. cbn [at_location]. rewrite lookup_empty.
      split; [intros [[? ?] | ?]; done | by right].
Qed.





Lemma ceilSqrt_one n : 1 <= n -> 1 <= ceilSqrt n.
Proof.
  intros Hn. unfold ceilSqrt. change 1 with (Z.sqrt_up 1) at 1.
  apply Z.sqrt_up_le_mono. exact Hn.
Qed.

(** With a canvas and its context, and no bitmap of the alphabet wider
    than the canvas, the constructor returns a font. *)
Lemma SDFFont_new_returns env options id :
  createElement_canvas env = Some id -> getContext_2d env = true ->
  let alphabet := default defaultAlphabet (opt_alphabet options) in
  (forall tinyOptions cp,
      cp ∈ codePoints alphabet ->
      width (TinySDF_draw env tinyOptions cp) <= ceilSqrt (js_length alphabet) * 126) ->
  exists f placed rest,
    SDFFont_new (S (length (codePoints alphabet))) env options = Some (Ok f)
    /\ codePoints alphabet = placed ++ rest
    /\ forall cp, is_Some (glyphAtlasLocation f !! cp) <-> cp ∈ placed.
Proof.
  intros Hc Hx alphabet Hwide.
  destruct (SDFFont_new_atlas (S (length (codePoints alphabet))) env options id Hc Hx)
    as (tinyOptions & _ & Hok). fold alphabet in Hok.
  destruct (buildAtlas_returns (TinySDF_draw env tinyOptions) (codePoints alphabet)
              (setHeight (ceilSqrt (js_length alphabet) * 126)
                 (setWidth (ceilSqrt (js_length alphabet) * 126) (createCanvas id))))
    as (a & placed & Hbuild & Hnext & Hloc).
  - cbn [setHeight setWidth canvas_width]. pose proof (ceilSqrt_nonneg (js_length alphabet)). lia.
  - intros cp Hcp. cbn [setHeight setWidth canvas_width]. by apply Hwide.
  - destruct (Hok a Hbuild) as (f & Hnew & _ & _ & Hlocf).
    exists f, placed, (at_next a). split; [exact Hnew |]. split; [exact Hnext |].
    intros cp. by rewrite Hlocf.
Qed.

(** C2, as amended.  There is no AtlasOverflow error: the packing loops
    raise nothing, for any alphabet, bitmaps, canvas and fuel, and the only
    errors the constructor raises are those of a missing canvas or
    context.  When every bitmap is within the 126 x 126 cell the canvas is
    sized by, the constructor returns and every code point of the alphabet
    is placed.  When bitmaps are larger than the cell but none is wider
    than the canvas, the constructor still returns normally, within one
    test of the outer loop for each code point and one more, with a
    location for each code point of a prefix of the alphabet and for no
    other: the code points the rows left no room for are the rest of the
    alphabet, and nothing reports them. *)
Theorem atlas_overflow_is_silent (env : Browser) (options : SDFFontOptions) :
  let alphabet := default defaultAlphabet (opt_alphabet options) in
  (forall draw (cps : list JSString) canvas fuel e,
      buildAtlas fuel (generateGlyphs draw cps) cps canvas <> Some (Throw e))
  /\ (forall fuel e,
        SDFFont_new fuel env options = Some (Throw e) ->
        createElement_canvas env = None \/ getContext_2d env = false)
  /\ (is_Some (createElement_canvas env) -> getContext_2d env = true ->
      ((forall tinyOptions cp,
           width (TinySDF_draw env tinyOptions cp) <= 126
           /\ height (TinySDF_draw env tinyOptions cp) <= 126) ->
       exists f,
         SDFFont_new (S (length (codePoints alphabet))) env options = Some (Ok f)
         /\ forall cp : JSString,
              cp ∈ codePoints alphabet -> is_Some (glyphAtlasLocation f !! cp))
      /\ ((forall tinyOptions cp,
              cp ∈ codePoints alphabet ->
              width (TinySDF_draw env tinyOptions cp)
              <= ceilSqrt (js_length alphabet) * 126) ->
          exists f placed rest,
            SDFFont_new (S (length (codePoints alphabet))) env options = Some (Ok f)
            /\ codePoints alphabet = placed ++ rest
            /\ forall cp, is_Some (glyphAtlasLocation f !! cp) <-> cp ∈ placed)).
Proof.
  intros alphabet. split; [intros draw cps canvas fuel e; apply buildAtlas_no_throw |].
  split.
  - intros fuel e Hnew.
    destruct (createElement_canvas env) as [id|] eqn:Hc; [| by left].
    destruct (getContext_2d env) eqn:Hx; [| by right]. exfalso.
    destruct (SDFFont_new_atlas fuel env options id Hc Hx) as (tinyOptions & Hthrow & _).
    exact (buildAtlas_no_throw _ _ _ _ _ (Hthrow e Hnew)).
  - intros [id Hc] Hx. split.
    + intros Hcell.
      destruct (SDFFont_new_returns env options id Hc Hx) as (f & placed & rest & Hnew & _).
      { intros tinyOptions cp Hcp. fold alphabet in Hcp |- *.
        destruct (Hcell tinyOptions cp) as [Hw _].
        assert (Hlen : 1 <= js_length alphabet).
        { unfold js_length. destruct alphabet; [inversion Hcp | cbn [length]; lia]. }
        pose proof (ceilSqrt_one _ Hlen). lia. }
      exists f. split; [exact Hnew |]. by apply (SDFFont_new_cell _ _ _ _ Hnew).
    + intros Hwide. by apply (SDFFont_new_returns env options id Hc Hx).
Qed.

(** The letters [AB] with 100 x 100 bitmaps: both are placed. *)
Lemma atlas_overflow_is_silent_witness :
  exists f,
    SDFFont_new 3 (page 1 100 100 100 100) (withAlphabet [65; 66] None) = Some (Ok f)
    /\ is_Some (glyphAtlasLocation f !! [65]) /\ is_Some (glyphAtlasLocation f !! [66]).
Proof.
  destruct (atlas_overflow_is_silent (page 1 100 100 100 100) (withAlphabet [65; 66] None))
    as (_ & _ & Hruns).
  destruct Hruns as [Hcell _]; [by eexists | reflexivity |].
  destruct Hcell as (f & Hnew & Hall).
  - intros tinyOptions cp. cbn [TinySDF_draw page]. destruct (bool_decide _); cbn; lia.
  - exists f. split; [exact Hnew |].
    split; apply Hall; [apply list_elem_of_here | apply list_elem_of_further, list_elem_of_here].
Defined.

(** C2, as stated, fails for the alphabet of the two emoji U+1F3B6 and
    U+1F389 with 130 x 130 bitmaps, larger than the cell.  The first fills
    the only row of the 252 x 252 canvas that can hold a glyph; the second
    is in the glyph table and is never placed.  The constructor returns
    the font all the same: no error is raised. *)
Lemma atlas_overflow_returns_a_font :
  constructed (SDFFont_new 5 (page 1 130 130 130 130)
                 (withAlphabet [55356; 57270; 55356; 57225] None))
    (fun f =>
       codePoints [55356; 57270; 55356; 57225] = [[55356; 57270]; [55356; 57225]]
       /\ canvas_width (atlasCanvas f) = 252 /\ canvas_height (atlasCanvas f) = 252
       /\ glyphRect f [55356; 57270] = Some (0, 0, 130, 130)
       /\ width <$> glyphs f !! [55356; 57225] = Some 130
       /\ glyphAtlasLocation f !! [55356; 57225] = None).
Proof. by vm_compute. Qed.

(* --------------------------------------------------------------------- *)
(** ** The packing loops: when they cannot advance *)
(* --------------------------------------------------------------------- *)

Lemma canvas_width_putImageData img dx dy c :
  canvas_width (putImageData img dx dy c) = canvas_width c.
Proof. reflexivity. Qed.

Lemma canvas_height_putImageData img dx dy c :
  canvas_height (putImageData img dx dy c) = canvas_height c.
Proof. reflexivity. Qed.

(** A row entered with a step wider than the canvas places nothing. *)
Lemma packRow_too_wide gt y cs mh next canvas loc :
  canvas_width canvas < cs ->
  packRow gt y 0 cs mh next canvas loc
  = Ok {| at_canvas := canvas; at_location := loc; at_next := next;
          at_currentSize := cs; at_maxHeight := mh |}.
Proof.
  intros Hw. destruct next as [|c next]; [reflexivity |]. cbn [packRow].
  destruct (Z.leb_spec (0 + cs) (canvas_width canvas)); [lia | reflexivity].
Qed.

(** With glyphs left, a step wider than the canvas and a row advance of
    zero, every test of the outer loop finds the state it left. *)
Lemma packRows_stuck fuel gt y a :
  at_next a <> [] ->
  canvas_width (at_canvas a) < at_currentSize a ->
  at_maxHeight a = 0 ->
  y <= canvas_height (at_canvas a) ->
  packRows fuel gt y a = None.
Proof.
  intros Hnext Hw Hmh Hy. induction fuel as [|fuel IH]; [reflexivity |].
  cbn [packRows]. rewrite Hmh.
  rewrite (proj2 (Z.leb_le _ _)) by lia.
  rewrite bool_decide_eq_false_2 by exact Hnext. cbn [negb andb].
  rewrite packRow_too_wide by exact Hw. cbn [at_maxHeight].
  destruct a as [cv loc nx cs mh]. cbn [at_maxHeight] in Hmh. subst mh.
  replace (y + 0) with y by lia. exact IH.
Qed.

(** The loops never return when the first glyph is wider than the canvas,
    a second glyph waits, and two rows of the first glyph's height fit. *)
Lemma buildAtlas_stuck gt c0 g0 rest canvas fuel :
  gt !! c0 = Some g0 ->
  rest <> [] ->
  0 <= canvas_width canvas < width g0 ->
  0 <= height g0 ->
  2 * height g0 <= canvas_height canvas ->
  buildAtlas fuel gt (c0 :: rest) canvas = None.
Proof.
  intros Hg Hrest Hw Hh HH. unfold buildAtlas.
  destruct fuel as [|fuel]; [reflexivity |].
  cbn [packRows at_maxHeight at_canvas at_next at_currentSize at_location].
  rewrite (proj2 (Z.leb_le _ _)) by lia.
  rewrite bool_decide_eq_false_2 by discriminate. cbn [negb andb].
  cbn [packRow]. rewrite (proj2 (Z.leb_le _ _)) by lia. rewrite Hg.
  destruct rest as [|c1 rest]; [done |].
  cbn [packRow]. rewrite canvas_width_putImageData.
  rewrite (proj2 (Z.leb_gt _ _)) by lia.
  cbn [at_maxHeight]. rewrite Z.max_r by lia.
  destruct fuel as [|fuel]; [reflexivity |].
  cbn [packRows at_maxHeight at_canvas at_next at_currentSize at_location].
  rewrite canvas_height_putImageData.
  rewrite (proj2 (Z.leb_le _ _)) by lia.
  rewrite bool_decide_eq_false_2 by discriminate. cbn [negb andb].
  rewrite packRow_too_wide by (rewrite canvas_width_putImageData; lia).
  cbn [at_maxHeight].
  apply packRows_stuck; cbn [at_next at_canvas at_currentSize at_maxHeight];
    rewrite ?canvas_width_putImageData, ?canvas_height_putImageData;
    [discriminate | lia | reflexivity | lia].
Qed.

(** The loops have no exit of their own for a row that cannot take a
    glyph.  With a rasterizer that returned a 300 x 100 bitmap for A, wider
    than tiny-sdf can return at this size and wider than the 252 x 252
    canvas of the alphabet ["AB"], A would be put at the origin, its width
    would become the column step, no later row could take a glyph, the row
    height would stay zero and B would be asked for again for ever. *)
Lemma oversized_bitmap_stalls_the_loops :
  forall fuel,
    SDFFont_new fuel (page 1 300 100 300 100) (withAlphabet [65; 66] None) = None.
Proof.
  intros fuel. unfold SDFFont_new.
  cbn [page createElement_canvas getContext_2d negb withAlphabet opt_alphabet
       opt_fontSize opt_fontWeight opt_fontStyle default from_option fmap option_fmap
       option_map TinySDF_draw].
  change (codePoints (id [65; 66])) with [[65]; [66]].
  rewrite (buildAtlas_stuck _ [65] (bitmapGlyph 300 100) [[66]]); [reflexivity | ..].
  - rewrite generateGlyphs_lookup by apply list_elem_of_here. reflexivity.
  - discriminate.
  - by vm_compute.
  - by vm_compute.
  - by vm_compute.
Qed.

(* --------------------------------------------------------------------- *)
(** ** The packing loops: they end *)
(* --------------------------------------------------------------------- *)



(* --------------------------------------------------------------------- *)
(** ** The batch: capacity and quad accounting *)
(* --------------------------------------------------------------------- *)

Lemma quadsDrawn_snoc r calls dc :
  drawElements r = calls ++ [dc] ->
  quadsDrawn r
  = foldr (fun dc n => Z.of_nat (length (dc_quads dc)) + n) 0 calls
    + Z.of_nat (length (dc_quads dc)).
Proof.
  unfold quadsDrawn. intros ->. induction calls as [|c calls IH]; simpl; lia.
Qed.

Lemma quadsDrawn_app r r' new :
  drawElements r' = drawElements r ++ new ->
  quadsDrawn r'
  = quadsDrawn r + foldr (fun dc n => Z.of_nat (length (dc_quads dc)) + n) 0 new.
Proof.
  unfold quadsDrawn. intros ->. induction (drawElements r) as [|c l IH]; simpl; lia.
Qed.

Lemma advances_refl r : batchInv r -> advances 0 r r.
Proof.
  intros H. split; [exact H |]. split; [exists []; by rewrite app_nil_r | lia].
Qed.

Lemma advances_trans n m r1 r2 r3 :
  advances n r1 r2 -> advances m r2 r3 -> advances (n + m) r1 r3.
Proof.
  intros (_ & [l1 E1] & T1) (I3 & [l2 E2] & T2).
  split; [exact I3 |]. split; [| lia].
  exists (l1 ++ l2). by rewrite E2, E1, app_assoc.
Qed.

(** Code that touches neither the counter, the buffer nor the draw calls. *)
Lemma advances_same r r' :
  batchInv r ->
  _imageCount r' = _imageCount r -> _vertexIndex r' = _vertexIndex r ->
  vertexBuffer r' = vertexBuffer r -> drawElements r' = drawElements r ->
  advances 0 r r'.
Proof.
  intros (Hc & Hb & Hv & Hd) Ec Ev Eb Ed.
  split; [| split].
  - unfold batchInv. by rewrite Ec, Ev, Eb, Ed.
  - exists []. by rewrite Ed, app_nil_r.
  - unfold quadsDrawn. rewrite Ec, Ed. lia.
Qed.

Lemma flush_advances r : batchInv r -> advances 0 r (flush r).
Proof.
  intros Hinv. unfold flush. destruct (Z.eqb_spec (_imageCount r) 0) as [E | E].
  - by apply advances_refl.
  - destruct Hinv as (Hc & Hb & Hv & Hd).
    assert (Htake : take (Z.to_nat (_imageCount r)) (vertexBuffer r) = vertexBuffer r).
    { apply firstn_all2. lia. }
    split; [| split].
    + unfold batchInv, _maxImages in *. cbn. rewrite Htake.
      split; [lia |]. split; [done |]. split; [done |].
      apply Forall_app. split; [exact Hd |].
      apply Forall_singleton. cbn. lia.
    + eexists. cbn. reflexivity.
    + erewrite quadsDrawn_snoc by (cbn; reflexivity).
      cbn [dc_quads _imageCount]. rewrite Htake. fold (quadsDrawn r). lia.
Qed.

Lemma flush_imageCount r : _imageCount (flush r) = 0.
Proof.
  unfold flush. destruct (Z.eqb_spec (_imageCount r) 0) as [E | E]; [exact E | reflexivity].
Qed.

(** After the test-and-flush that opens [draw] and each round of its
    loop, the buffer has room for a quad. *)
Lemma room_after_isFull r :
  batchInv r ->
  let r' := if _isFull r then flush r else r in
  advances 0 r r' /\ _imageCount r' < _maxImages.
Proof.
  intros Hinv. cbv zeta. destruct (_isFull r) eqn:Efull.
  - split; [by apply flush_advances |]. rewrite flush_imageCount. by vm_compute.
  - split; [by apply advances_refl |].
    unfold _isFull in Efull.
    destruct (Z.leb_spec _maxImages (_imageCount r)); [discriminate | lia].
Qed.

Lemma writeQuad_advances q r :
  batchInv r -> _imageCount r < _maxImages -> advances 1 r (writeQuad q r).
Proof.
  intros (Hc & Hb & Hv & Hd) Hroom. split; [| split].
  - unfold batchInv. cbn. rewrite length_app. cbn. repeat split; try lia. exact Hd.
  - exists []. cbn. by rewrite app_nil_r.
  - unfold quadsDrawn. cbn. lia.
Qed.

Lemma drawChar_advances font w h t r c :
  batchInv r ->
  advances (if isPresent font c then 1 else 0) r (drawChar font w h t r c).
Proof.
  intros Hinv. destruct (room_after_isFull r Hinv) as [Hadv Hroom]. cbv zeta in *.
  unfold isPresent.
  destruct (glyphs font !! c) as [g|] eqn:Eg;
    [destruct (glyphAtlasLocation font !! c) as [[x y]|] eqn:El |].
  - rewrite (drawChar_present _ _ _ _ _ _ _ _ _ Eg El).
    rewrite !bool_decide_eq_true_2 by eauto. cbn [andb].
    apply (advances_trans 0 1 _ _ _ Hadv).
    apply writeQuad_advances; [apply Hadv | exact Hroom].
  - rewrite drawChar_absent by (by right).
    rewrite (bool_decide_eq_false_2 (is_Some None)) by (by intros [? ?]).
    rewrite andb_false_r. exact Hadv.
  - rewrite drawChar_absent by (by left).
    rewrite (bool_decide_eq_false_2 (is_Some None)) by (by intros [? ?]).
    cbn [andb]. exact Hadv.
Qed.

Lemma drawLoop_advances font w h t (cps : list JSString) r :
  batchInv r ->
  advances (Z.of_nat (length (filter (fun c => isPresent font c = true) cps)))
           r (fold_left (drawChar font w h t) cps r).
Proof.
  revert r. induction cps as [|c cps IH]; intros r Hinv.
  - by apply advances_refl.
  - cbn [fold_left].
    pose proof (drawChar_advances font w h t r c Hinv) as Hc.
    pose proof (IH _ (proj1 Hc)) as Hrest.
    pose proof (advances_trans _ _ _ _ _ Hc Hrest) as Hall.
    destruct (isPresent font c) eqn:Ep.
    + rewrite filter_cons_True by exact Ep. cbn [length].
      replace (Z.of_nat (S _)) with (1 + Z.of_nat
        (length (filter (fun c => isPresent font c = true) cps))) by lia.
      exact Hall.
    + rewrite filter_cons_False by (by rewrite Ep). exact Hall.
Qed.

Lemma _addImageAsTexture_advances image r :
  batchInv r -> advances 0 r (_addImageAsTexture image r).
Proof.
  intros Hinv. unfold _addImageAsTexture.
  repeat case_bool_decide; try (by apply advances_refl).
  by apply advances_same.
Qed.

Lemma _getImageWidth_advances image r :
  batchInv r -> advances 0 r (_getImageWidth image r).2.
Proof.
  intros Hinv. unfold _getImageWidth.
  destruct (_imageToWidth r !! canvas_id image); cbn [snd];
    [by apply advances_refl | by apply advances_same].
Qed.

Lemma _getImageHeight_advances image r :
  batchInv r -> advances 0 r (_getImageHeight image r).2.
Proof.
  intros Hinv. unfold _getImageHeight.
  destruct (_imageToHeight r !! canvas_id image); cbn [snd];
    [by apply advances_refl | by apply advances_same].
Qed.

Lemma setShading_advances g h r : batchInv r -> advances 0 r (setShading g h r).
Proof. intros Hinv. by apply advances_same. Qed.

Lemma draw_advances font text r :
  batchInv r -> advances (presentGlyphs font text) r (draw font text r).
Proof.
  intros Hinv. unfold draw, presentGlyphs.
  destruct (room_after_isFull r Hinv) as [H1 _]. cbv zeta in H1.
  set (r1 := if _isFull r then flush r else r) in *.
  assert (H2 : advances 0 r1
    (if negb (Qeq_bool (_sdfGamma r1) (gamma font))
        || negb (Qeq_bool (_sdfHalo r1) (halo font))
     then setShading (gamma font) (halo font) (flush r1) else r1)).
  { destruct (_ || _).
    - apply (advances_trans 0 0 _ (flush r1)); [apply flush_advances, H1 |].
      apply setShading_advances, flush_advances, H1.
    - apply advances_refl, H1. }
  set (r2 := if _ || _ then _ else r1) in *.
  pose proof (_addImageAsTexture_advances (atlasCanvas font) r2 (proj1 H2)) as H3.
  set (r3 := _addImageAsTexture (atlasCanvas font) r2) in *.
  pose proof (_getImageWidth_advances (atlasCanvas font) r3 (proj1 H3)) as H4.
  destruct (_getImageWidth (atlasCanvas font) r3) as [w r4]. cbn [snd] in H4.
  pose proof (_getImageHeight_advances (atlasCanvas font) r4 (proj1 H4)) as H5.
  destruct (_getImageHeight (atlasCanvas font) r4) as [h r5]. cbn [snd] in H5.
  pose proof (drawLoop_advances font w h
    (_getTextureIdForImage (atlasCanvas font) r5) (codePoints text) r5 (proj1 H5)) as H6.
  pose proof (advances_trans _ _ _ _ _ H1
    (advances_trans _ _ _ _ _ H2
      (advances_trans _ _ _ _ _ H3
        (advances_trans _ _ _ _ _ H4
          (advances_trans _ _ _ _ _ H5 H6))))) as Hall.
  cbn [Z.add] in Hall. exact Hall.
Qed.

Lemma call_advances c r :
  batchInv r ->
  advances (match c with CallDraw font text => presentGlyphs font text | CallFlush => 0 end)
           r (call r c).
Proof.
  intros Hinv. destruct c as [font text |]; cbn [call];
    [by apply draw_advances | by apply flush_advances].
Qed.

Lemma calls_advances cs r :
  batchInv r -> advances (quadsRequested cs) r (calls cs r).
Proof.
  revert r. induction cs as [|c cs IH]; intros r Hinv.
  - by apply advances_refl.
  - unfold calls. cbn [fold_left foldr quadsRequested].
    pose proof (call_advances c r Hinv) as Hc.
    pose proof (advances_trans _ _ _ _ _ Hc (IH _ (proj1 Hc))) as Hall.
    destruct c; [exact Hall |]. cbn [Z.add] in Hall. exact Hall.
Qed.

Lemma newRenderer_batchInv maxTextures : batchInv (newRenderer maxTextures).
Proof.
  unfold batchInv. cbn. repeat split; done.
Qed.

(** C6, as amended.  From an initialized renderer, after any list of
    [draw] and [flush] calls: the quad counter is between 0 and 10922 =
    floor(65535 / 6); every draw call issued covered at most 10922 quads;
    every glyph of every text drawn that the font has in its glyph table
    and in its location table has its quad, drawn already or pending in
    the buffer, and nothing else has one; and a further draw with more
    such glyphs than fit in what remains issues at least one draw call of
    its own. *)
Theorem batch_capacity_invariant (maxTextures : Z) (cs : list Call) :
  let r := calls cs (newRenderer maxTextures) in
  _maxImages = 65535 / 6
  /\ 0 <= _imageCount r <= _maxImages
  /\ _imageCount r = Z.of_nat (length (vertexBuffer r))
  /\ Forall (fun dc => Z.of_nat (length (dc_quads dc)) <= _maxImages
                       /\ dc_indices dc = 6 * Z.of_nat (length (dc_quads dc)))
            (drawElements r)
  /\ quadsDrawn r + _imageCount r = quadsRequested cs
  /\ forall font text,
       let r' := draw font text r in
       0 <= _imageCount r' <= _maxImages
       /\ quadsDrawn r' + _imageCount r' = quadsRequested cs + presentGlyphs font text
       /\ (_maxImages < _imageCount r + presentGlyphs font text ->
           (length (drawElements r) < length (drawElements r'))%nat).
Proof.
  cbv zeta.
  destruct (calls_advances cs _ (newRenderer_batchInv maxTextures))
    as (Hinv & _ & Htotal).
  change (quadsDrawn (newRenderer maxTextures)) with 0 in Htotal.
  change (_imageCount (newRenderer maxTextures)) with 0 in Htotal.
  split; [reflexivity |].
  destruct Hinv as (Hc & Hb & Hv & Hd).
  split; [exact Hc |]. split; [exact Hb |]. split; [exact Hd |]. split; [lia |].
  intros font text.
  destruct (draw_advances font text _ (conj Hc (conj Hb (conj Hv Hd))))
    as ((Hc' & _) & [new Enew] & Htotal').
  split; [exact Hc' |]. split; [lia |].
  intros Hover. rewrite Enew, length_app.
  rewrite (quadsDrawn_app _ _ _ Enew) in Htotal'.
  destruct new as [|dc new]; [cbn in Htotal'; lia | cbn; lia].
Qed.

(** On a fresh renderer, one draw of the font ["A"] with a text of 10923
    letters A, one more than the capacity, issues a draw call of its own. *)
Lemma batch_capacity_invariant_witness :
  exists f,
    fontA 1 = Some (Ok f)
    /\ presentGlyphs f (lettersA 10923) = 10923
    /\ (length (drawElements (newRenderer 16))
        < length (drawElements (draw f (lettersA 10923) (newRenderer 16))))%nat.
Proof.
  remember (fontA 1) as o eqn:E.
  assert (H : constructed o (fun f => presentGlyphs f (lettersA 10923) = 10923))
    by (rewrite E; by vm_compute).
  destruct o as [[f|]|]; [| destruct H..]. cbn [constructed] in H.
  exists f. split; [reflexivity |]. split; [exact H |].
  destruct (batch_capacity_invariant 16 []) as (_ & _ & _ & _ & _ & Hdraw).
  destruct (Hdraw f (lettersA 10923)) as (_ & _ & Hflush).
  apply Hflush. change (calls [] (newRenderer 16)) with (newRenderer 16).
  rewrite H. by vm_compute.
Defined.

(** C6, as stated, fails for a glyph that the constructor left without a
    location.  The font of the two emoji U+1F3B6 and U+1F389 with
    130 x 130 bitmaps has both glyphs in its glyph table and a location
    for the first only.  A draw of the two emoji on a fresh renderer
    leaves one quad pending, that of the first; the second emoji, whose
    glyph is present in the glyph table, is dropped without a word, and
    the end-of-frame flush draws one quad. *)
Lemma unplaced_glyph_gets_no_quad :
  constructed (SDFFont_new 5 (page 1 130 130 130 130)
                 (withAlphabet [55356; 57270; 55356; 57225] None))
    (fun f =>
       let text := [55356; 57270; 55356; 57225] in
       let r := draw f text (newRenderer 16) in
       codePoints text = [[55356; 57270]; [55356; 57225]]
       /\ is_Some (glyphs f !! [55356; 57270])
       /\ is_Some (glyphs f !! [55356; 57225])
       /\ glyphAtlasLocation f !! [55356; 57225] = None
       /\ _imageCount r = 1
       /\ map q_char (vertexBuffer r) = [[55356; 57270]]
       /\ drawElements r = []
       /\ quadsDrawn (flush r) = 1
       /\ presentGlyphs f text = 1).
Proof. vm_compute. repeat split; eauto. Qed.

(** C9, as amended.  A character that [draw] does not find in the glyph
    table (or in the location table) gets no quad and raises nothing: its
    round of the loop is the capacity test alone.  When the batch is not
    full the renderer is left exactly as it was; when it is full the
    pending quads are flushed first, so the counter goes back to zero; no
    quad is added or lost either way, and the loop goes on with the rest
    of the text. *)
Theorem missing_glyph_is_skipped font w h t r c rest :
  glyphs font !! c = None \/ glyphAtlasLocation font !! c = None ->
  let r' := drawChar font w h t r c in
  r' = (if _isFull r then flush r else r)
  /\ (_isFull r = false -> r' = r)
  /\ (_isFull r = true -> _imageCount r' = 0)
  /\ (batchInv r -> quadsDrawn r' + _imageCount r' = quadsDrawn r + _imageCount r)
  /\ fold_left (drawChar font w h t) (c :: rest) r
     = fold_left (drawChar font w h t) rest r'.
Proof.
  intros Habs. cbv zeta. rewrite (drawChar_absent _ _ _ _ _ _ Habs).
  split; [reflexivity |]. split; [by intros -> |].
  split; [intros ->; apply flush_imageCount |].
  split.
  - intros Hinv. destruct (room_after_isFull r Hinv) as [(_ & _ & Htotal) _].
    cbv zeta in Htotal. lia.
  - cbn [fold_left]. by rewrite (drawChar_absent _ _ _ _ _ _ Habs).
Qed.

(** The font ["A"] has no glyph for ["?"]; on a fresh renderer. *)
Lemma missing_glyph_is_skipped_witness :
  exists f,
    fontA 1 = Some (Ok f)
    /\ glyphs f !! [63] = None
    /\ drawChar f 126 126 0 (newRenderer 16) [63] = newRenderer 16.
Proof.
  remember (fontA 1) as o eqn:E.
  assert (H : constructed o (fun f => glyphs f !! [63] = None))
    by (rewrite E; by vm_compute).
  destruct o as [[f|]|]; [| destruct H..]. cbn [constructed] in H.
  exists f. split; [reflexivity |]. split; [exact H |].
  destruct (missing_glyph_is_skipped f 126 126 0 (newRenderer 16) [63] [] (or_introl H))
    as (_ & Hsame & _).
  apply Hsame. reflexivity.
Defined.

(** C9, as stated, fails when the batch is full at the missing character.
    Fifteen fonts have drawn ["A"]; the sixteenth draws ["?"], which it
    does not have.  At the entry of that draw the batch is not full and the
    shading is the font's own; the font's atlas then takes the last
    texture unit, and the round of the loop for ["?"] flushes: the counter
    goes from 15 to 0. *)
Lemma missing_glyph_resets_quad_count :
  let r15 := calls (map (fun f => CallDraw f [65]) (take 15 (fontsA 16))) renderer16 in
  match fontsA 16 !! 15%nat with
  | Some f16 =>
      let atEntry := (_getImageHeight (atlasCanvas f16)
                        (_getImageWidth (atlasCanvas f16)
                           (_addImageAsTexture (atlasCanvas f16) r15)).2).2 in
      glyphs f16 !! [63] = None
      /\ _isFull r15 = false
      /\ Qeq_bool (_sdfGamma r15) (gamma f16) = true
      /\ Qeq_bool (_sdfHalo r15) (halo f16) = true
      /\ _imageCount atEntry = 15
      /\ _imageCount (drawChar f16 126 126 15 atEntry [63]) = 0
      /\ _imageCount (draw f16 [63] r15) = 0
      /\ length (drawElements r15) = 0%nat
      /\ length (drawElements (draw f16 [63] r15)) = 1%nat
  | None => False
  end.
Proof. by vm_compute. Qed.

(* --------------------------------------------------------------------- *)
(** ** The batch: one shading pair a draw call *)
(* --------------------------------------------------------------------- *)

Lemma shadingInv_same r r' :
  shadingInv r ->
  vertexBuffer r' = vertexBuffer r -> drawElements r' = drawElements r ->
  _sdfGamma r' = _sdfGamma r -> _sdfHalo r' = _sdfHalo r ->
  shadingInv r'.
Proof. intros H Eb Ed Eg Eh. unfold shadingInv. by rewrite Eb, Ed, Eg, Eh. Qed.

Lemma flush_shading r :
  shadingInv r ->
  shadingInv (flush r)
  /\ _sdfGamma (flush r) = _sdfGamma r /\ _sdfHalo (flush r) = _sdfHalo r.
Proof.
  intros [Hbuf Hcalls]. unfold flush.
  destruct (_imageCount r =? 0); [done |].
  split; [| done]. split; cbn; [apply Forall_nil_2 |].
  apply Forall_app. split; [exact Hcalls |].
  apply Forall_singleton. cbn. by apply Forall_take.
Qed.

Lemma flush_vertexBuffer r : batchInv r -> vertexBuffer (flush r) = [].
Proof.
  intros (_ & Hb & _). unfold flush.
  destruct (Z.eqb_spec (_imageCount r) 0) as [E | E]; [| reflexivity].
  destruct (vertexBuffer r); [reflexivity | cbn in Hb; lia].
Qed.

Lemma drawChar_shading font w h t r c :
  batchInv r -> shadingInv r ->
  (_sdfGamma r == gamma font)%Q -> (_sdfHalo r == halo font)%Q ->
  shadingInv (drawChar font w h t r c)
  /\ _sdfGamma (drawChar font w h t r c) = _sdfGamma r
  /\ _sdfHalo (drawChar font w h t r c) = _sdfHalo r.
Proof.
  intros Hinv Hsh Hg Hh.
  assert (H1 : shadingInv (if _isFull r then flush r else r)
               /\ _sdfGamma (if _isFull r then flush r else r) = _sdfGamma r
               /\ _sdfHalo (if _isFull r then flush r else r) = _sdfHalo r).
  { destruct (_isFull r); [by apply flush_shading | done]. }
  destruct H1 as ([Hbuf Hcalls] & Eg & Eh).
  unfold drawChar. set (r1 := if _isFull r then flush r else r) in *.
  destruct (glyphs font !! c) as [g|]; [| done].
  destruct (glyphAtlasLocation font !! c) as [[x y]|]; [| done].
  split; [| done]. split; cbn; [| exact Hcalls].
  apply Forall_app. split; [exact Hbuf |].
  apply Forall_singleton. split; cbn; [by rewrite Eg | by rewrite Eh].
Qed.

Lemma drawLoop_shading font w h t (cps : list JSString) r :
  batchInv r -> shadingInv r ->
  (_sdfGamma r == gamma font)%Q -> (_sdfHalo r == halo font)%Q ->
  shadingInv (fold_left (drawChar font w h t) cps r).
Proof.
  revert r. induction cps as [|c cps IH]; intros r Hinv Hsh Hg Hh; [exact Hsh |].
  cbn [fold_left].
  destruct (drawChar_shading font w h t r c Hinv Hsh Hg Hh) as (Hsh' & Eg & Eh).
  apply IH; [apply drawChar_advances, Hinv | exact Hsh' | by rewrite Eg | by rewrite Eh].
Qed.

Lemma draw_shading font text r :
  batchInv r -> shadingInv r -> shadingInv (draw font text r).
Proof.
  intros Hinv Hsh. unfold draw.
  destruct (room_after_isFull r Hinv) as [[Hinv1 _] _]. cbv zeta in Hinv1.
  assert (Hsh1 : shadingInv (if _isFull r then flush r else r)).
  { destruct (_isFull r); [by apply flush_shading | done]. }
  set (r1 := if _isFull r then flush r else r) in *.
  set (r2 := if negb (Qeq_bool (_sdfGamma r1) (gamma font))
                || negb (Qeq_bool (_sdfHalo r1) (halo font))
             then setShading (gamma font) (halo font) (flush r1) else r1).
  assert (H2 : batchInv r2 /\ shadingInv r2
               /\ (_sdfGamma r2 == gamma font)%Q /\ (_sdfHalo r2 == halo font)%Q).
  { subst r2.
    destruct (Qeq_bool (_sdfGamma r1) (gamma font)) eqn:Eg;
      destruct (Qeq_bool (_sdfHalo r1) (halo font)) eqn:Eh; cbn [negb orb];
      try (split; [apply setShading_advances, flush_advances, Hinv1 |];
           split; [| done];
           split; cbn; [rewrite flush_vertexBuffer by exact Hinv1; apply Forall_nil_2
                       | apply flush_shading, Hsh1]).
    split; [exact Hinv1 |]. split; [exact Hsh1 |].
    split; by apply Qeq_bool_iff. }
  clearbody r2. destruct H2 as (Hinv2 & Hsh2 & Hg & Hh).
  pose proof (_addImageAsTexture_advances (atlasCanvas font) r2 Hinv2) as [Hinv3 _].
  assert (Hsh3 : shadingInv (_addImageAsTexture (atlasCanvas font) r2)
                 /\ _sdfGamma (_addImageAsTexture (atlasCanvas font) r2) = _sdfGamma r2
                 /\ _sdfHalo (_addImageAsTexture (atlasCanvas font) r2) = _sdfHalo r2).
  { unfold _addImageAsTexture. repeat case_bool_decide; done. }
  set (r3 := _addImageAsTexture (atlasCanvas font) r2) in *.
  destruct Hsh3 as (Hsh3 & Eg3 & Eh3).
  pose proof (_getImageWidth_advances (atlasCanvas font) r3 Hinv3) as [Hinv4 _].
  assert (Hsh4 : shadingInv (_getImageWidth (atlasCanvas font) r3).2
                 /\ _sdfGamma (_getImageWidth (atlasCanvas font) r3).2 = _sdfGamma r3
                 /\ _sdfHalo (_getImageWidth (atlasCanvas font) r3).2 = _sdfHalo r3).
  { unfold _getImageWidth. by destruct (_imageToWidth r3 !! _). }
  destruct (_getImageWidth (atlasCanvas font) r3) as [w r4]. cbn [snd] in *.
  destruct Hsh4 as (Hsh4 & Eg4 & Eh4).
  pose proof (_getImageHeight_advances (atlasCanvas font) r4 Hinv4) as [Hinv5 _].
  assert (Hsh5 : shadingInv (_getImageHeight (atlasCanvas font) r4).2
                 /\ _sdfGamma (_getImageHeight (atlasCanvas font) r4).2 = _sdfGamma r4
                 /\ _sdfHalo (_getImageHeight (atlasCanvas font) r4).2 = _sdfHalo r4).
  { unfold _getImageHeight. by destruct (_imageToHeight r4 !! _). }
  destruct (_getImageHeight (atlasCanvas font) r4) as [h r5]. cbn [snd] in *.
  destruct Hsh5 as (Hsh5 & Eg5 & Eh5).
  apply drawLoop_shading; [exact Hinv5 | exact Hsh5 | |].
  - by rewrite Eg5, Eg4, Eg3.
  - by rewrite Eh5, Eh4, Eh3.
Qed.

(** X2.  Every quad of every draw call was emitted for a font whose gamma
    and halo are the two uniforms of that call: the first half of the batch
    invariant of the data model holds for every list of calls. *)
Lemma draw_calls_share_shading (maxTextures : Z) (cs : list Call) :
  Forall (fun dc => Forall (sameShading (dc_gamma dc) (dc_halo dc)) (dc_quads dc))
         (drawElements (calls cs (newRenderer maxTextures))).
Proof.
  assert (H : forall r, batchInv r -> shadingInv r -> shadingInv (calls cs r)).
  { induction cs as [|c cs IH]; intros r Hinv Hsh; [exact Hsh |].
    unfold calls. cbn [fold_left]. apply IH.
    - apply call_advances, Hinv.
    - destruct c as [font text |]; cbn [call];
        [by apply draw_shading | by apply flush_shading]. }
  apply (H (newRenderer maxTextures)).
  - apply newRenderer_batchInv.
  - split; apply Forall_nil_2.
Qed.

(* --------------------------------------------------------------------- *)
(** ** The batch: texture slots *)
(* --------------------------------------------------------------------- *)

(** C7.  [flush] returns early when no quad is pending and then leaves the
    texture tables as they are.  Seventeen fonts, each drawn once with the
    empty string on a renderer with 16 texture units: no draw ever finds a
    pending quad, no flush resets the tables, and the seventeenth atlas is
    given slot 16, one more texture than [_maxTextures]. *)
Theorem texture_slots_exceed_maxTextures :
  let r := calls (map (fun f => CallDraw f []) (fontsA 17)) renderer16 in
  length (fontsA 17) = 17%nat
  /\ _maxTextures r = 16
  /\ length (_textures r) = 17%nat
  /\ _textureToIndex r !! 17%nat = Some 16
  /\ drawElements r = [].
Proof. by vm_compute. Qed.

(** C8.  The texture index of a draw is read once, before the loop over
    the text; a flush inside the loop empties the texture tables and the
    index is not renewed.  Sixteen fonts, each drawn with ["A"], then the
    end-of-frame flush: the sixteenth draw fills the last unit, so its
    first character flushes the fifteen pending quads, and its own quad,
    written with index 15, reaches the GPU in a second draw call in which
    no texture unit holds any atlas. *)
Theorem quad_slot_unpopulated_after_inner_flush :
  let r := calls (map (fun f => CallDraw f [65]) (fontsA 16) ++ [CallFlush]) renderer16 in
  length (fontsA 16) = 16%nat
  /\ match drawElements r with
     | [first; second] =>
         length (dc_quads first) = 15%nat
         /\ forallb (slotPopulated first) (dc_quads first) = true
         /\ map q_textureId (dc_quads second) = [15]
         /\ map q_image (dc_quads second) = [16%nat]
         /\ dc_units second = repeat None 16
         /\ forallb (slotPopulated second) (dc_quads second) = false
     | _ => False
     end.
Proof. by vm_compute. Qed.

(* ===================================================================== *)
(** * Further properties of the renderer *)
(* ===================================================================== *)

(* --------------------------------------------------------------------- *)
(** ** The texture tables *)
(* --------------------------------------------------------------------- *)

Lemma textureInv_same r r' :
  textureInv r ->
  _textures r' = _textures r -> _textureIndex r' = _textureIndex r ->
  _textureToIndex r' = _textureToIndex r -> _images r' = _images r ->
  textureInv r'.
Proof. intros H E1 E2 E3 E4. unfold textureInv. by rewrite E1, E2, E3, E4. Qed.

Lemma textureInv_empty r :
  _textures r = [] -> _textureIndex r = 0 -> _textureToIndex r = ∅ -> _images r = ∅ ->
  textureInv r.
Proof.
  intros E1 E2 E3 E4. unfold textureInv. rewrite E1, E2, E3, E4.
  split; [reflexivity |]. split; [apply NoDup_nil_2 |]. split.
  - intros t i. rewrite lookup_empty, lookup_nil. split; [done | by intros [_ ?]].
  - intros t. rewrite elem_of_nil. set_solver.
Qed.

Lemma flush_textureInv r : textureInv r -> textureInv (flush r).
Proof.
  intros H. unfold flush. destruct (_imageCount r =? 0); [exact H |].
  by apply textureInv_empty.
Qed.

Lemma _addImageAsTexture_textureInv image r :
  textureInv r ->
  textureInv (_addImageAsTexture image r)
  /\ canvas_id image ∈ _textures (_addImageAsTexture image r)
  /\ (exists new, _textures (_addImageAsTexture image r) = _textures r ++ new
                  /\ (length new <= 1)%nat).
Proof.
  intros (Hidx & Hnd & Hmap & Himg). unfold _addImageAsTexture, textureLoader_load.
  case_bool_decide as Hin.
  { split; [done |]. split; [by apply Himg |]. exists []. split; [by rewrite app_nil_r | cbn; lia]. }
  case_bool_decide as Hin'; [by apply Himg in Hin' |].
  split; [| split]; unfold textureInv;
    cbn [_textures _textureIndex _textureToIndex _images].
  - split; [rewrite length_app; cbn [length]; lia |].
    split; [apply NoDup_app; split; [done |]; split;
            [intros x Hx ->%list_elem_of_singleton; done | apply NoDup_singleton] |].
    split.
    + intros t i. destruct (decide (t = canvas_id image)) as [-> | Hne].
      * rewrite lookup_insert_eq. split.
        -- intros [= <-]. split; [lia |]. rewrite Hidx, Nat2Z.id.
           by rewrite lookup_app_r, Nat.sub_diag.
        -- intros [Hi Hl]. f_equal. rewrite Hidx.
           destruct (decide (Z.to_nat i < length (_textures r))%nat) as [Hlt | Hge].
           ++ rewrite lookup_app_l in Hl by done.
              exfalso. apply Hin'. by eapply list_elem_of_lookup_2.
           ++ apply lookup_lt_Some in Hl. rewrite length_app in Hl. cbn in Hl. lia.
      * rewrite lookup_insert_ne by done. rewrite Hmap. split.
        -- intros [Hi Hl]. split; [done |]. by apply lookup_app_l_Some.
        -- intros [Hi Hl]. split; [done |].
           apply lookup_app_Some in Hl as [Hl | [_ Hl]]; [done |].
           apply list_lookup_singleton_Some in Hl as [_ ?]. done.
    + intros t. rewrite elem_of_union, elem_of_singleton, elem_of_app,
        list_elem_of_singleton, Himg. tauto.
  - apply elem_of_app. right. by apply list_elem_of_singleton.
  - exists [canvas_id image]. split; [reflexivity | cbn; lia].
Qed.

Lemma drawChar_textureInv font w h t r c :
  textureInv r -> textureInv (drawChar font w h t r c).
Proof.
  intros H. unfold drawChar.
  assert (H1 : textureInv (if _isFull r then flush r else r))
    by (destruct (_isFull r); [by apply flush_textureInv | done]).
  destruct (glyphs font !! c); [| done].
  destruct (glyphAtlasLocation font !! c) as [[x y]|]; [| done].
  by eapply textureInv_same.
Qed.

Lemma drawLoop_textureInv font w h t (cps : list JSString) r :
  textureInv r -> textureInv (fold_left (drawChar font w h t) cps r).
Proof.
  revert r. induction cps as [|c cps IH]; intros r H; [done |].
  cbn [fold_left]. apply IH. by apply drawChar_textureInv.
Qed.

Lemma draw_textureInv font text r : textureInv r -> textureInv (draw font text r).
Proof.
  intros H. unfold draw.
  assert (H1 : textureInv (if _isFull r then flush r else r))
    by (destruct (_isFull r); [by apply flush_textureInv | done]).
  set (r1 := if _isFull r then flush r else r) in *.
  assert (H2 : textureInv
    (if negb (Qeq_bool (_sdfGamma r1) (gamma font))
        || negb (Qeq_bool (_sdfHalo r1) (halo font))
     then setShading (gamma font) (halo font) (flush r1) else r1)).
  { destruct (_ || _); [| done].
    eapply textureInv_same; [by apply flush_textureInv, H1 | done..]. }
  set (r2 := if _ || _ then _ else r1) in *.
  destruct (_addImageAsTexture_textureInv (atlasCanvas font) r2 H2) as (H3 & _).
  set (r3 := _addImageAsTexture (atlasCanvas font) r2) in *.
  assert (H4 : textureInv (_getImageWidth (atlasCanvas font) r3).2).
  { unfold _getImageWidth. destruct (_imageToWidth r3 !! _); [done |].
    by eapply textureInv_same. }
  destruct (_getImageWidth (atlasCanvas font) r3) as [w r4]. cbn [snd] in H4.
  assert (H5 : textureInv (_getImageHeight (atlasCanvas font) r4).2).
  { unfold _getImageHeight. destruct (_imageToHeight r4 !! _); [done |].
    by eapply textureInv_same. }
  destruct (_getImageHeight (atlasCanvas font) r4) as [h r5]. cbn [snd] in H5.
  by apply drawLoop_textureInv.
Qed.

Lemma calls_textureInv cs r : textureInv r -> textureInv (calls cs r).
Proof.
  revert r. induction cs as [|c cs IH]; intros r H; [done |].
  unfold calls. cbn [fold_left]. apply IH.
  destruct c as [font text |]; cbn [call];
    [by apply draw_textureInv | by apply flush_textureInv].
Qed.

(** X3.  The texture tables stay a one-to-one numbering.  After any list of
    [draw] and [flush] calls the registered textures are pairwise distinct
    and [_textureIndex] is their number; for any image,
    [_getTextureIdForImage] answers -1 exactly when the image is not
    registered, and otherwise the one position at which [_textures] holds
    it. *)
Theorem texture_slots_are_a_numbering (maxTextures : Z) (cs : list Call) (image : Canvas) :
  let r := calls cs (newRenderer maxTextures) in
  let id := _getTextureIdForImage image r in
  NoDup (_textures r)
  /\ _textureIndex r = Z.of_nat (length (_textures r))
  /\ (id = -1 <-> canvas_id image ∉ _textures r)
  /\ (id <> -1 ->
      0 <= id < Z.of_nat (length (_textures r))
      /\ _textures r !! Z.to_nat id = Some (canvas_id image)
      /\ forall j, _textures r !! j = Some (canvas_id image) -> j = Z.to_nat id).
Proof.
  cbv zeta.
  assert (H : textureInv (calls cs (newRenderer maxTextures)))
    by (apply calls_textureInv; by apply textureInv_empty).
  destruct H as (Hidx & Hnd & Hmap & Himg).
  split; [exact Hnd |]. split; [exact Hidx |].
  unfold _getTextureIdForImage, textureLoader_get.
  destruct (_textureToIndex _ !! canvas_id image) as [i|] eqn:E;
    unfold default; cbn [from_option id].
  - apply Hmap in E as [Hi Hl]. split.
    + split; [lia |]. intros Hnin. exfalso. apply Hnin. by eapply list_elem_of_lookup_2.
    + intros _. pose proof (lookup_lt_Some _ _ _ Hl). split; [lia |]. split; [exact Hl |].
      intros j Hj. by eapply NoDup_lookup.
  - split; [| done]. split; [| done]. intros _ Hin.
    apply list_elem_of_lookup in Hin as [j Hj].
    assert (Hsome : _textureToIndex (calls cs (newRenderer maxTextures))
                      !! canvas_id image = Some (Z.of_nat j)).
    { apply Hmap. split; [lia |]. by rewrite Nat2Z.id. }
    by rewrite E in Hsome.
Qed.

(* --------------------------------------------------------------------- *)
(** ** A frame within capacity *)
(* --------------------------------------------------------------------- *)





Lemma flush_textures_length r :
  (length (_textures (flush r)) <= length (_textures r))%nat.
Proof. unfold flush. destruct (_imageCount r =? 0); cbn; lia. Qed.








Lemma flush_noop r : _imageCount r = 0 -> flush r = r.
Proof. intros E. unfold flush. by rewrite E. Qed.








(* --------------------------------------------------------------------- *)
(** ** What a flush and a draw hand over *)
(* --------------------------------------------------------------------- *)

Lemma emitted_flush r : batchInv r -> emitted (flush r) = emitted r.
Proof.
  intros (Hc & Hb & _). unfold flush, emitted.
  destruct (Z.eqb_spec (_imageCount r) 0) as [E | E]; [reflexivity |].
  cbn. rewrite map_app, concat_app. cbn.
  rewrite firstn_all2 by lia. by rewrite !app_nil_r.
Qed.

Lemma emitted_same r r' :
  vertexBuffer r' = vertexBuffer r -> drawElements r' = drawElements r ->
  emitted r' = emitted r.
Proof. intros Eb Ed. unfold emitted. by rewrite Eb, Ed. Qed.

Lemma drawChar_emitted font w h t r c :
  batchInv r ->
  emitted (drawChar font w h t r c)
  = emitted r ++ match quadFor font w h t c with Some q => [q] | None => [] end.
Proof.
  intros Hinv.
  assert (H1 : emitted (if _isFull r then flush r else r) = emitted r)
    by (destruct (_isFull r); [by apply emitted_flush | done]).
  unfold drawChar, quadFor.
  destruct (glyphs font !! c) as [g|]; [| by rewrite app_nil_r].
  destruct (glyphAtlasLocation font !! c) as [[x y]|]; [| by rewrite app_nil_r].
  unfold emitted in *. cbn. by rewrite app_assoc, H1.
Qed.

Lemma drawLoop_emitted font w h t (cps : list JSString) r :
  batchInv r ->
  emitted (fold_left (drawChar font w h t) cps r)
  = emitted r ++ omap (quadFor font w h t) cps.
Proof.
  revert r. induction cps as [|c cps IH]; intros r Hinv; [by rewrite app_nil_r |].
  cbn [fold_left omap list_omap]. rewrite IH by apply drawChar_advances, Hinv.
  rewrite drawChar_emitted by exact Hinv. rewrite <- app_assoc. f_equal.
  by destruct (quadFor font w h t c).
Qed.

Lemma draw_emitted font text r :
  batchInv r ->
  exists w h t,
    emitted (draw font text r) = emitted r ++ omap (quadFor font w h t) (codePoints text).
Proof.
  intros Hinv. unfold draw.
  destruct (room_after_isFull r Hinv) as [[Hinv1 _] _]. cbv zeta in Hinv1.
  assert (E1 : emitted (if _isFull r then flush r else r) = emitted r)
    by (destruct (_isFull r); [by apply emitted_flush | done]).
  set (r1 := if _isFull r then flush r else r) in *.
  set (r2 := if negb (Qeq_bool (_sdfGamma r1) (gamma font))
                || negb (Qeq_bool (_sdfHalo r1) (halo font))
             then setShading (gamma font) (halo font) (flush r1) else r1).
  assert (H2 : batchInv r2 /\ emitted r2 = emitted r1).
  { subst r2. destruct (_ || _); [| done].
    split; [apply setShading_advances, flush_advances, Hinv1 |].
    rewrite <- (emitted_flush r1 Hinv1). by apply emitted_same. }
  clearbody r2. destruct H2 as [Hinv2 E2].
  pose proof (_addImageAsTexture_advances (atlasCanvas font) r2 Hinv2) as [Hinv3 _].
  assert (E3 : emitted (_addImageAsTexture (atlasCanvas font) r2) = emitted r2)
    by (unfold _addImageAsTexture; repeat case_bool_decide; done).
  set (r3 := _addImageAsTexture (atlasCanvas font) r2) in *.
  pose proof (_getImageWidth_advances (atlasCanvas font) r3 Hinv3) as [Hinv4 _].
  assert (E4 : emitted (_getImageWidth (atlasCanvas font) r3).2 = emitted r3)
    by (unfold _getImageWidth; by destruct (_imageToWidth r3 !! _)).
  destruct (_getImageWidth (atlasCanvas font) r3) as [w r4]. cbn [snd] in *.
  pose proof (_getImageHeight_advances (atlasCanvas font) r4 Hinv4) as [Hinv5 _].
  assert (E5 : emitted (_getImageHeight (atlasCanvas font) r4).2 = emitted r4)
    by (unfold _getImageHeight; by destruct (_imageToHeight r4 !! _)).
  destruct (_getImageHeight (atlasCanvas font) r4) as [h r5]. cbn [snd] in *.
  exists w, h, (_getTextureIdForImage (atlasCanvas font) r5).
  rewrite drawLoop_emitted by exact Hinv5. by rewrite E5, E4, E3, E2, E1.
Qed.

Lemma quadFor_chars font w h t (cps : list JSString) :
  map q_char (omap (quadFor font w h t) cps)
  = filter (fun c => isPresent font c = true) cps.
Proof.
  induction cps as [|c cps IH]; [reflexivity |].
  cbn [omap list_omap]. unfold quadFor at 1, isPresent.
  destruct (glyphs font !! c) as [g|] eqn:Eg;
    [destruct (glyphAtlasLocation font !! c) as [[x y]|] eqn:El |].
  - rewrite filter_cons_True
      by (unfold isPresent; rewrite Eg, El, !bool_decide_eq_true_2; eauto).
    cbn. by rewrite IH.
  - rewrite filter_cons_False; [exact IH |].
    unfold isPresent. rewrite Eg, El.
    rewrite (bool_decide_eq_false_2 (is_Some None)) by (by intros [? ?]).
    by rewrite andb_false_r.
  - rewrite filter_cons_False; [exact IH |].
    unfold isPresent. rewrite Eg.
    by rewrite (bool_decide_eq_false_2 (is_Some None)) by (by intros [? ?]).
Qed.

Lemma quadFor_sources font w h t (cps : list JSString) :
  map quadSource (omap (quadFor font w h t) cps) = omap (glyphRect font) cps.
Proof.
  induction cps as [|c cps IH]; [reflexivity |].
  cbn [omap list_omap]. unfold quadFor at 1, glyphRect at 1.
  destruct (glyphs font !! c) as [g|];
    destruct (glyphAtlasLocation font !! c) as [[x y]|]; cbn; by rewrite ?IH.
Qed.

Lemma quadFor_common font w h t (cps : list JSString) :
  Forall (fun q => q_textureId q = t /\ q_image q = canvas_id (atlasCanvas font)
                   /\ q_imageWidth q = w /\ q_imageHeight q = h)
         (omap (quadFor font w h t) cps).
Proof.
  induction cps as [|c cps IH]; [apply Forall_nil_2 |].
  cbn [omap list_omap]. unfold quadFor at 1.
  destruct (glyphs font !! c) as [g|]; [| exact IH].
  destruct (glyphAtlasLocation font !! c) as [[x y]|]; [| exact IH].
  apply Forall_cons. by split.
Qed.

(** X6.  A draw hands over one quad for each character it finds, in the
    order of the text.  After any list of calls, the quads the renderer
    has been given (drawn or pending) after one more [draw] are those
    before it followed by new ones: their characters are the text's
    present code points in order, their atlas rectangles are the fonts'
    recorded locations and bitmap sizes, and they all carry the font's
    atlas and one texture index. *)
Theorem draw_emits_in_text_order (maxTextures : Z) (cs : list Call)
    (font : SDFFont) (text : JSString) :
  let r := calls cs (newRenderer maxTextures) in
  exists new t,
    emitted (draw font text r) = emitted r ++ new
    /\ map q_char new = filter (fun c => isPresent font c = true) (codePoints text)
    /\ map quadSource new = omap (glyphRect font) (codePoints text)
    /\ Forall (fun q => q_textureId q = t /\ q_image q = canvas_id (atlasCanvas font)) new.
Proof.
  cbv zeta.
  destruct (calls_advances cs _ (newRenderer_batchInv maxTextures)) as (Hinv & _).
  destruct (draw_emitted font text _ Hinv) as (w & h & t & E).
  exists (omap (quadFor font w h t) (codePoints text)), t.
  split; [exact E |]. split; [apply quadFor_chars |]. split; [apply quadFor_sources |].
  eapply Forall_impl; [apply quadFor_common |]. intros q (? & ? & _). done.
Qed.

(** X7.  What a flush hands over.  After any list of calls, [flush] with
    nothing pending changes nothing; with quads pending it issues one draw
    call that covers exactly the quads in the buffer, six indices a quad,
    and empties the texture tables.  Either way nothing is pending
    afterwards and a second flush changes nothing. *)
Theorem flush_hands_over_the_buffer (maxTextures : Z) (cs : list Call) :
  let r := calls cs (newRenderer maxTextures) in
  (hasPendingDraws r = false -> flush r = r)
  /\ (hasPendingDraws r = true ->
      exists dc,
        drawElements (flush r) = drawElements r ++ [dc]
        /\ dc_quads dc = vertexBuffer r
        /\ dc_indices dc = 6 * Z.of_nat (length (vertexBuffer r))
        /\ _textures (flush r) = [] /\ _textureToIndex (flush r) = ∅)
  /\ hasPendingDraws (flush r) = false
  /\ vertexBuffer (flush r) = []
  /\ flush (flush r) = flush r.
Proof.
  cbv zeta.
  destruct (calls_advances cs _ (newRenderer_batchInv maxTextures)) as (Hinv & _).
  set (r := calls cs (newRenderer maxTextures)) in *.
  pose proof (flush_imageCount r) as E0.
  split; [| split; [| split; [| split]]].
  - unfold hasPendingDraws. intros H%negb_false_iff%Z.eqb_eq. by apply flush_noop.
  - unfold hasPendingDraws. intros H%negb_true_iff%Z.eqb_neq.
    destruct Hinv as (Hc & Hb & _). unfold flush.
    destruct (Z.eqb_spec (_imageCount r) 0); [done |].
    eexists. cbn. split; [reflexivity |]. cbn.
    rewrite firstn_all2 by lia. split; [done |]. split; [lia | done].
  - unfold hasPendingDraws. by rewrite E0.
  - by apply flush_vertexBuffer.
  - by apply flush_noop.
Qed.

(** X8.  The write cursor stays in the vertex buffer.  After any list of
    calls the cursor is 36 numbers for each pending quad and at most the
    [9 * 4 * _maxImages] numbers that [initialize] allocates. *)
Theorem vertex_cursor_stays_in_buffer (maxTextures : Z) (cs : list Call) :
  let r := calls cs (newRenderer maxTextures) in
  _vertexIndex r = 36 * Z.of_nat (length (vertexBuffer r))
  /\ 0 <= _vertexIndex r <= vertexBufferSize
  /\ (_isFull r = false -> _vertexIndex r + 36 <= vertexBufferSize).
Proof.
  cbv zeta.
  destruct (calls_advances cs _ (newRenderer_batchInv maxTextures))
    as ((Hc & Hb & Hv & _) & _).
  unfold vertexBufferSize. split; [lia |]. split; [lia |].
  unfold _isFull.
  destruct (Z.leb_spec _maxImages (_imageCount (calls cs (newRenderer maxTextures))));
    [done | lia].
Qed.

(* ===================================================================== *)
(** * Further properties: the shader complexity search *)
(* ===================================================================== *)

(** Below 2^32 the halving is the floor of the half. *)
Lemma toInt32_half n : 0 <= n < 2 ^ 32 -> toInt32 (Z.quot n 2) = n / 2.
Proof.
  intros Hn. rewrite Z.quot_div_nonneg by lia. unfold toInt32.
  assert (0 <= n / 2 < 2147483648)
    by (split; [apply Z.div_pos; lia | apply Z.div_lt_upper_bound; lia]).
  rewrite Z.mod_small by lia. lia.
Qed.

Lemma halved_S k n : halved (S k) n = halved k (toInt32 (Z.quot n 2)).
Proof. exact (Nat.iter_succ_r k (fun n => toInt32 (Z.quot n 2)) n). Qed.

Lemma halved_small k : forall n, 0 <= n < 2 ^ 32 -> halved k n = n / 2 ^ Z.of_nat k.
Proof.
  induction k as [|k IH]; intros n Hn.
  - change (halved 0 n) with n. by rewrite Z.pow_0_r, Z.div_1_r.
  - rewrite halved_S, toInt32_half by exact Hn.
    assert (0 <= n / 2 < 2 ^ 32)
      by (split; [apply Z.div_pos; lia | apply Z.div_lt_upper_bound; lia]).
    rewrite IH by assumption.
    rewrite Nat2Z.inj_succ, Z.pow_succ_r by lia. by rewrite Z.div_div by lia.
Qed.

(** The search returns at the first count that compiles, and not before. *)
Lemma getMaxShaderComplexity_run gl (k : nat) :
  forall numIfs,
    compiles gl (halved k numIfs) = true ->
    (forall j : nat, (j < k)%nat -> compiles gl (halved j numIfs) = false) ->
    forall fuel,
      getMaxShaderComplexity fuel gl numIfs
      = if decide (k < fuel)%nat then Some (halved k numIfs) else None.
Proof.
  induction k as [|k IH]; intros numIfs Hc Hfail fuel.
  - change (halved 0 numIfs) with numIfs in *.
    destruct fuel as [|fuel]; [reflexivity |]. cbn [getMaxShaderComplexity].
    rewrite Hc. by rewrite decide_True by lia.
  - destruct fuel as [|fuel]; [reflexivity |]. cbn [getMaxShaderComplexity].
    pose proof (Hfail 0%nat ltac:(lia)) as H0. change (halved 0 numIfs) with numIfs in H0.
    rewrite H0. rewrite halved_S in Hc.
    rewrite (IH _ Hc); [rewrite halved_S; by repeat case_decide; try lia |].
    intros j Hj. rewrite <- halved_S. apply Hfail. lia.
Qed.

Lemma getMaxShaderComplexity_halves gl (fuel : nat) :
  forall numIfs,
    0 <= numIfs < Z.of_nat fuel -> numIfs < 2 ^ 32 -> compiles gl 0 = true ->
    exists n (k : nat),
      getMaxShaderComplexity fuel gl numIfs = Some n
      /\ n = numIfs / 2 ^ Z.of_nat k
      /\ compiles gl n = true
      /\ forall j : nat, (j < k)%nat -> compiles gl (numIfs / 2 ^ Z.of_nat j) = false.
Proof.
  induction fuel as [|fuel IH]; intros numIfs Hn H32 H0; [lia |].
  cbn [getMaxShaderComplexity]. destruct (compiles gl numIfs) eqn:Ec.
  - exists numIfs, 0%nat. split; [reflexivity |].
    split; [by rewrite Z.pow_0_r, Z.div_1_r |]. split; [exact Ec | lia].
  - assert (Hpos : 0 < numIfs).
    { destruct (decide (numIfs = 0)) as [-> | ?]; [congruence | lia]. }
    rewrite toInt32_half by lia.
    assert (Hhalf : 0 <= numIfs / 2 < numIfs)
      by (split; [apply Z.div_pos; lia | apply Z.div_lt; lia]).
    destruct (IH (numIfs / 2)) as (n & k & Hrun & Hn' & Hc & Hfail);
      [lia | lia | exact H0 |].
    exists n, (S k). split; [exact Hrun |].
    assert (Hdiv : forall j : nat, numIfs / 2 ^ Z.of_nat (S j) = numIfs / 2 / 2 ^ Z.of_nat j).
    { intros j. rewrite Nat2Z.inj_succ, Z.pow_succ_r by lia.
      rewrite Z.div_div by lia. reflexivity. }
    split; [by rewrite Hdiv |]. split; [exact Hc |].
    intros [|j] Hj; [by rewrite Z.pow_0_r, Z.div_1_r |].
    rewrite Hdiv. apply Hfail. lia.
Qed.

(** Started at a count [0 <= numIfs < 2^32] on a context where the shader
    without branches compiles, the search ends within [numIfs + 1]
    compilations; its answer is the first of [numIfs], [numIfs / 2],
    [numIfs / 4], ... whose test shader compiles: it is at most [numIfs],
    and it is [numIfs] itself when that compiles. *)
Lemma getMaxShaderComplexity_returns (gl : WebGL) (numIfs : Z) :
  0 <= numIfs < 2 ^ 32 -> compiles gl 0 = true ->
  exists n (k : nat),
    getMaxShaderComplexity (S (Z.to_nat numIfs)) gl numIfs = Some n
    /\ n = numIfs / 2 ^ Z.of_nat k
    /\ compiles gl n = true
    /\ (forall j : nat, (j < k)%nat -> compiles gl (numIfs / 2 ^ Z.of_nat j) = false)
    /\ 0 <= n <= numIfs
    /\ (compiles gl numIfs = true -> n = numIfs).
Proof.
  intros Hn H0.
  destruct (getMaxShaderComplexity_halves gl (S (Z.to_nat numIfs)) numIfs)
    as (n & k & Hrun & -> & Hc & Hfail); [lia | lia | exact H0 |].
  exists (numIfs / 2 ^ Z.of_nat k), k.
  split; [exact Hrun |]. split; [reflexivity |]. split; [exact Hc |].
  split; [exact Hfail |].
  assert (Hpow : 0 < 2 ^ Z.of_nat k) by (apply Z.pow_pos_nonneg; lia).
  split.
  - split; [apply Z.div_pos; lia |]. apply Z.div_le_upper_bound; [lia | nia].
  - intros Hc0. destruct k as [|k]; [by rewrite Z.pow_0_r, Z.div_1_r |].
    specialize (Hfail 0%nat ltac:(lia)). rewrite Z.pow_0_r, Z.div_1_r in Hfail.
    congruence.
Qed.

(** X9.  What the complexity search returns.  When [k] is the first
    number of halvings after which the test shader compiles, the search
    returns the count halved [k] times at its compilation number [k + 1]:
    with fuel for [k] compilations it has not returned, whatever [numIfs]
    and whether or not the shader without branches compiles.  Each halving
    is [(n / 2) | 0]; from a count [0 <= numIfs < 2^32] the answer is the
    floor of [numIfs / 2^k]. *)
Theorem getMaxShaderComplexity_first_compiling_half (gl : WebGL) (numIfs : Z) (k : nat) :
  compiles gl (halved k numIfs) = true ->
  (forall j : nat, (j < k)%nat -> compiles gl (halved j numIfs) = false) ->
  getMaxShaderComplexity (S k) gl numIfs = Some (halved k numIfs)
  /\ getMaxShaderComplexity k gl numIfs = None
  /\ (forall fuel,
        getMaxShaderComplexity fuel gl numIfs
        = if decide (k < fuel)%nat then Some (halved k numIfs) else None)
  /\ (0 <= numIfs < 2 ^ 32 -> halved k numIfs = numIfs / 2 ^ Z.of_nat k).
Proof.
  intros Hc Hfail.
  pose proof (getMaxShaderComplexity_run gl k numIfs Hc Hfail) as Hrun.
  split; [rewrite Hrun; by rewrite decide_True by lia |].
  split; [rewrite Hrun; by rewrite decide_False by lia |].
  split; [exact Hrun | apply halved_small].
Qed.

(** A context on which only the test shader with 8 branches compiles, not
    even the one without branches, asked at 16: 16 does not compile, 8
    does at the second compilation, and 8 is the answer. *)
Lemma getMaxShaderComplexity_first_compiling_half_witness :
  getMaxShaderComplexity 2 {| MAX_TEXTURE_IMAGE_UNITS := 16;
                              compiles := fun n => n =? 8 |} 16 = Some 8
  /\ getMaxShaderComplexity 1 {| MAX_TEXTURE_IMAGE_UNITS := 16;
                                 compiles := fun n => n =? 8 |} 16 = None.
Proof.
  destruct (getMaxShaderComplexity_first_compiling_half
              {| MAX_TEXTURE_IMAGE_UNITS := 16; compiles := fun n => n =? 8 |} 16 1)
    as (Hrun & Hnot & _).
  - reflexivity.
  - intros [|j] Hj; [reflexivity | lia].
  - split; [exact Hrun | exact Hnot].
Defined.

(** X10.  When no test shader compiles, not even the one without branches,
    the search never returns. *)
Theorem getMaxShaderComplexity_never_returns (gl : WebGL) :
  (forall n, compiles gl n = false) ->
  forall fuel numIfs, getMaxShaderComplexity fuel gl numIfs = None.
Proof.
  intros Hnone fuel. induction fuel as [|fuel IH]; intros numIfs; [reflexivity |].
  cbn [getMaxShaderComplexity]. by rewrite Hnone.
Qed.

Lemma getMaxShaderComplexity_never_returns_witness :
  getMaxShaderComplexity 100 {| MAX_TEXTURE_IMAGE_UNITS := 16; compiles := fun _ => false |} 16
  = None.
Proof.
  apply (getMaxShaderComplexity_never_returns
           {| MAX_TEXTURE_IMAGE_UNITS := 16; compiles := fun _ => false |}).
  reflexivity.
Defined.

(** X11.  What [initialize] leaves.  On a context with a hardware limit
    [>= 0] (a GLint, so below 2^31; the halving is exact below 2^32)
    where the shader without branches compiles, [initialize]
    returns; [_maxTextures] is the answer of the search itself (the
    [Math.min] with the hardware limit never lowers it): a count whose
    test shader compiles, between 0 and the hardware limit, and the
    hardware limit when that compiles.  The renderer starts with nothing
    pending and no texture registered. *)
Theorem initialize_maxTextures (gl : WebGL) :
  0 <= MAX_TEXTURE_IMAGE_UNITS gl < 2 ^ 32 -> compiles gl 0 = true ->
  exists r,
    initialize (S (Z.to_nat (MAX_TEXTURE_IMAGE_UNITS gl))) gl = Some r
    /\ getMaxShaderComplexity (S (Z.to_nat (MAX_TEXTURE_IMAGE_UNITS gl))) gl
         (MAX_TEXTURE_IMAGE_UNITS gl) = Some (_maxTextures r)
    /\ compiles gl (_maxTextures r) = true
    /\ 0 <= _maxTextures r <= MAX_TEXTURE_IMAGE_UNITS gl
    /\ (compiles gl (MAX_TEXTURE_IMAGE_UNITS gl) = true
        -> _maxTextures r = MAX_TEXTURE_IMAGE_UNITS gl)
    /\ hasPendingDraws r = false /\ _textures r = [] /\ _isFull r = (_maxTextures r <=? 0).
Proof.
  intros Hmax H0.
  destruct (getMaxShaderComplexity_returns gl _ Hmax H0)
    as (n & k & Hrun & _ & Hc & _ & Hn & Hsame).
  unfold initialize. rewrite Hrun. eexists. split; [reflexivity |].
  cbn [_maxTextures newRenderer]. rewrite Z.min_r by lia.
  split; [reflexivity |]. split; [exact Hc |]. split; [exact Hn |].
  split; [exact Hsame |]. split; [reflexivity |]. split; [reflexivity |].
  unfold _isFull. cbn [_imageCount _maxTextures _textures newRenderer length].
  change (_maxImages <=? 0) with false. change (Z.of_nat 0) with 0.
  by destruct (n <=? 0).
Qed.

Lemma initialize_maxTextures_witness :
  exists r, initialize 17 gl16 = Some r /\ _maxTextures r = 16.
Proof.
  destruct (initialize_maxTextures gl16) as (r & Hrun & _ & _ & _ & Hsame & _);
    [by vm_compute | reflexivity |].
  exists r. split; [exact Hrun |]. by apply Hsame.
Defined.

(* ===================================================================== *)
(** * Further properties: the atlas *)
(* ===================================================================== *)

Lemma ta_get_storeRGBA_at i a d c :
  0 <= c < 4 -> 0 <= 4 * i + c < ta_length d ->
  ta_get (storeRGBA i a d) (4 * i + c) = if c =? 3 then 255 else clampByte a.
Proof.
  intros Hc Hlen. unfold storeRGBA.
  assert (E : c = 0 \/ c = 1 \/ c = 2 \/ c = 3) by lia.
  destruct E as [-> | [-> | [-> | ->]]]; cbn [Z.eqb].
  - rewrite !ta_get_set_ne by lia. by rewrite ta_get_set_eq by lia.
  - rewrite !ta_get_set_ne by lia. by rewrite ta_get_set_eq by (rewrite !ta_length_set; lia).
  - rewrite !ta_get_set_ne by lia. by rewrite ta_get_set_eq by (rewrite !ta_length_set; lia).
  - by rewrite ta_get_set_eq by (rewrite !ta_length_set; lia).
Qed.

(** The loop of [_makeRGBAImageData], whatever the lengths: output pixel
    [n] is written when the input has a byte for it, and only then. *)
Lemma ta_get_fillRGBA_any alpha :
  forall i d n c,
    0 <= c < 4 -> 0 <= 4 * n + c < ta_length d ->
    ta_get (fillRGBA alpha i d) (4 * n + c)
    = if (i <=? n) && (n <? i + Z.of_nat (length alpha))
      then if c =? 3 then 255 else clampByte (nth (Z.to_nat (n - i)) alpha 0)
      else ta_get d (4 * n + c).
Proof.
  induction alpha as [|a alpha IH]; intros i d n c Hc Hlen.
  - cbn [fillRGBA length]. destruct (Z.leb_spec i n); [| done].
    destruct (Z.ltb_spec n (i + Z.of_nat 0)); [lia | done].
  - cbn [fillRGBA]. rewrite IH by (rewrite ?ta_length_storeRGBA; lia).
    cbn [length]. destruct (Z.leb_spec (i + 1) n).
    + destruct (Z.ltb_spec n (i + 1 + Z.of_nat (length alpha))).
      * rewrite (proj2 (Z.leb_le i n)), (proj2 (Z.ltb_lt _ _)) by lia. cbn [andb].
        replace (Z.to_nat (n - i)) with (S (Z.to_nat (n - (i + 1)))) by lia.
        reflexivity.
      * cbn [andb]. rewrite (proj2 (Z.leb_le i n)) by lia.
        rewrite (proj2 (Z.ltb_ge _ _)) by lia. cbn [andb].
        apply ta_get_storeRGBA_other. lia.
    + cbn [andb]. destruct (Z.leb_spec i n).
      * assert (n = i) as -> by lia.
        rewrite (proj2 (Z.ltb_lt _ _)) by lia. cbn [andb].
        rewrite Z.sub_diag. cbn [Z.to_nat nth]. by apply ta_get_storeRGBA_at.
      * cbn [andb]. apply ta_get_storeRGBA_other. lia.
Qed.

(** X12.  What [_makeRGBAImageData] builds, whatever the length of the
    input.  The image has [4 * width * height] bytes.  Its pixel [n] is
    the [n]-th input byte as red, green and blue with alpha 255 when the
    input has an [n]-th byte, and transparent black otherwise; input bytes
    beyond [width * height] are dropped. *)
Theorem makeRGBAImageData_pixels (alphaChannel : list Z) (w h n : Z) :
  0 <= n < w * h ->
  let img := _makeRGBAImageData alphaChannel w h in
  let px := (ta_get (img_data img) (4 * n), ta_get (img_data img) (4 * n + 1),
             ta_get (img_data img) (4 * n + 2), ta_get (img_data img) (4 * n + 3)) in
  img_width img = w /\ img_height img = h /\ ta_length (img_data img) = 4 * w * h
  /\ px = if n <? Z.of_nat (length alphaChannel)
          then let b := clampByte (nth (Z.to_nat n) alphaChannel 0) in (b, b, b, 255)
          else (0, 0, 0, 0).
Proof.
  intros Hn. cbv zeta. unfold _makeRGBAImageData, newImageData.
  cbn [img_width img_height img_data]. rewrite ta_length_fillRGBA.
  cbn [ta_length newUint8ClampedArray].
  split; [reflexivity |]. split; [reflexivity |]. split; [reflexivity |].
  assert (Hget : forall c, 0 <= c < 4 ->
    ta_get (fillRGBA alphaChannel 0 (newUint8ClampedArray (4 * w * h))) (4 * n + c)
    = if n <? Z.of_nat (length alphaChannel)
      then if c =? 3 then 255 else clampByte (nth (Z.to_nat n) alphaChannel 0)
      else 0).
  { intros c Hc. rewrite ta_get_fillRGBA_any
      by (cbn [ta_length newUint8ClampedArray]; lia).
    rewrite (proj2 (Z.leb_le 0 n)) by lia. cbn [andb].
    rewrite Z.add_0_l, Z.sub_0_r. by destruct (n <? Z.of_nat (length alphaChannel)). }
  pose proof (Hget 0 ltac:(lia)) as H0. rewrite Z.add_0_r in H0.
  rewrite H0, (Hget 1), (Hget 2), (Hget 3) by lia.
  by destruct (n <? Z.of_nat (length alphaChannel)).
Qed.

(** A 2 x 2 image from three bytes, one of them out of range for a byte:
    pixel 1 is the clamped second byte, pixel 3 is transparent. *)
Lemma makeRGBAImageData_pixels_witness :
  let img := _makeRGBAImageData [7; 300; 9] 2 2 in
  (ta_get (img_data img) (4 * 1), ta_get (img_data img) (4 * 1 + 1),
   ta_get (img_data img) (4 * 1 + 2), ta_get (img_data img) (4 * 1 + 3))
  = (255, 255, 255, 255)
  /\ (ta_get (img_data img) (4 * 3), ta_get (img_data img) (4 * 3 + 1),
      ta_get (img_data img) (4 * 3 + 2), ta_get (img_data img) (4 * 3 + 3))
     = (0, 0, 0, 0).
Proof.
  cbv zeta. split.
  - destruct (makeRGBAImageData_pixels [7; 300; 9] 2 2 1) as (_ & _ & _ & ->);
      [lia | reflexivity].
  - destruct (makeRGBAImageData_pixels [7; 300; 9] 2 2 3) as (_ & _ & _ & ->);
      [lia | reflexivity].
Defined.

(** The letters [AB] with 30 x 30 bitmaps: their two rectangles are apart. *)
Lemma placed_rectangles_disjoint_witness :
  exists f,
    SDFFont_new 5 (page 1 30 30 30 30) (withAlphabet [65; 66] None) = Some (Ok f)
    /\ disjointAtlas (glyphs f) (glyphAtlasLocation f).
Proof.
  remember (SDFFont_new 5 (page 1 30 30 30 30) (withAlphabet [65; 66] None)) as o eqn:E.
  assert (H : constructed o (fun _ => True)) by (rewrite E; by vm_compute).
  destruct o as [[f|]|]; [| destruct H..]. symmetry in E.
  exists f. split; [reflexivity |].
  apply (placed_rectangles_disjoint _ _ _ _ E).
  intros tinyOptions cp. cbn [TinySDF_draw page].
  destruct (bool_decide _); apply wfGlyph_bitmapGlyph; lia.
Defined.

(* ===================================================================== *)
(** * Further properties: the lines of a text *)
(* ===================================================================== *)

Lemma split_newline_nonempty text : split_newline text <> [].
Proof.
  destruct text as [|u rest]; [done |]. cbn [split_newline].
  destruct (u =? 10); [done |]. by destruct (split_newline rest).
Qed.

Lemma join_newline_cons line l lines :
  join_newline (line :: l :: lines) = line ++ 10 :: join_newline (l :: lines).
Proof. reflexivity. Qed.

Lemma join_split_newline text : join_newline (split_newline text) = text.
Proof.
  induction text as [|u rest IH]; [reflexivity |]. cbn [split_newline].
  pose proof (split_newline_nonempty rest) as Hne.
  destruct (split_newline rest) as [|l ls] eqn:E; [done |].
  destruct (Z.eqb_spec u 10) as [-> | Hu].
  - rewrite join_newline_cons, IH. reflexivity.
  - destruct ls as [|l' ls].
    + cbn [join_newline] in *. by rewrite IH.
    + rewrite join_newline_cons in *. by rewrite <- IH.
Qed.

Lemma wrapLines_fits emptyBox w :
  bb_width emptyBox <= w ->
  forall fuel i (lines : list JSString),
    (length lines - i < fuel)%nat -> wrapLines fuel emptyBox w i lines = Some lines.
Proof.
  intros Hfit. induction fuel as [|fuel IH]; intros i lines Hfuel; [lia |].
  cbn [wrapLines]. destruct (lines !! i) as [line|] eqn:E; [| reflexivity].
  apply lookup_lt_Some in E. unfold measureText.
  rewrite (proj2 (Z.ltb_ge _ _)) by lia. apply IH. lia.
Qed.

Lemma shrinkLine_never_returns emptyBox w :
  w < bb_width emptyBox ->
  forall fuel line newLine, shrinkLine fuel emptyBox w line newLine = None.
Proof.
  intros Hwide. induction fuel as [|fuel IH]; intros line newLine; [reflexivity |].
  cbn [shrinkLine]. unfold measureText. rewrite (proj2 (Z.ltb_lt _ _)) by lia. apply IH.
Qed.

(** X13.  [_getLinesFromText] never wraps a line.  When the width of the
    engine's empty bounding box is at most [maxWidth], or no [maxWidth] is
    given, the method returns within one test of its loop for each line
    and one more; its answer is [text.split('\n')], whose lines joined by
    line feeds are the text again; a cache that is empty or coherent is
    left coherent, and with a [maxWidth] the same call made again answers
    the same lines from the cache, at no cost. *)
Theorem getLinesFromText_is_split (emptyBox : BoundingBox) (text : JSString)
    (maxWidth : option Z) (c : LineCache) :
  coherentCache c ->
  (forall w, maxWidth = Some w -> bb_width emptyBox <= w) ->
  exists c',
    _getLinesFromText (S (length (split_newline text))) emptyBox text maxWidth c
    = Some (split_newline text, c')
    /\ join_newline (split_newline text) = text
    /\ coherentCache c'
    /\ (maxWidth = None -> c' = c)
    /\ (forall w, maxWidth = Some w ->
                  _getLinesFromText 0 emptyBox text maxWidth c'
                  = Some (split_newline text, c')).
Proof.
  intros Hc Hfit. unfold _getLinesFromText.
  pose proof (split_newline_nonempty text) as Hne.
  assert (Hhit : forall w,
    _getLinesFromText 0 emptyBox text (Some w)
      {| _cachedText := Some text; _cachedLines := Some (split_newline text);
         _cachedRenderWidth := Some w |}
    = Some (split_newline text,
            {| _cachedText := Some text; _cachedLines := Some (split_newline text);
               _cachedRenderWidth := Some w |})).
  { intros w. unfold _getLinesFromText. cbn [_cachedText _cachedLines _cachedRenderWidth].
    rewrite !bool_decide_eq_true_2 by done.
    by destruct (split_newline text). }
  destruct (bool_decide (_cachedText c = Some text)
            && bool_decide (_cachedRenderWidth c = maxWidth)
            && match _cachedLines c with Some (_ :: _) => true | _ => false end) eqn:Ehit.
  - (* answered from the cache *)
    apply andb_true_iff in Ehit as [Ehit _].
    apply andb_true_iff in Ehit as [Et Ew].
    apply bool_decide_eq_true_1 in Et, Ew.
    destruct Hc as [-> | (text' & w' & ->)]; [discriminate |].
    cbn in Et, Ew. injection Et as ->. subst maxWidth. cbn [_cachedLines default from_option id].
    eexists. split; [reflexivity |]. split; [apply join_split_newline |].
    split; [right; eauto |]. split; [discriminate |].
    intros w [= <-]. apply Hhit.
  - destruct maxWidth as [w|].
    + rewrite wrapLines_fits by (first [by apply Hfit | lia]).
      eexists. split; [reflexivity |]. split; [apply join_split_newline |].
      split; [right; eauto |]. split; [discriminate |].
      intros w' [= <-]. apply Hhit.
    + eexists. split; [reflexivity |]. split; [apply join_split_newline |]. done.
Qed.

(** A three-line text on a fresh font, with the engine's empty box of
    width 0 and a [maxWidth] of 100. *)
Lemma getLinesFromText_is_split_witness :
  exists c',
    _getLinesFromText 4 {| bb_left := 0; bb_top := 0; bb_right := 0; bb_bottom := 0 |}
                      [72; 105; 10; 10; 33] (Some 100) noLineCache
    = Some ([[72; 105]; []; [33]], c').
Proof.
  destruct (getLinesFromText_is_split
              {| bb_left := 0; bb_top := 0; bb_right := 0; bb_bottom := 0 |}
              [72; 105; 10; 10; 33] (Some 100) noLineCache)
    as (c' & Hrun & _); [by left | intros w [= <-]; by vm_compute |].
  exists c'. exact Hrun.
Defined.

(** X14.  With a [maxWidth] below the width of the engine's empty bounding
    box, a call that the cache does not answer never returns: the inner
    loop tests a measure that removing characters does not change. *)
Theorem getLinesFromText_never_returns (emptyBox : BoundingBox) (text : JSString)
    (w : Z) (c : LineCache) :
  w < bb_width emptyBox ->
  _cachedText c <> Some text ->
  forall fuel, _getLinesFromText fuel emptyBox text (Some w) c = None.
Proof.
  intros Hwide Hmiss fuel. unfold _getLinesFromText.
  rewrite (bool_decide_eq_false_2 _ Hmiss). cbn [andb].
  pose proof (split_newline_nonempty text) as Hne.
  destruct (split_newline text) as [|line lines]; [done |].
  destruct fuel as [|fuel]; [reflexivity |].
  cbn [wrapLines lookup list_lookup]. unfold measureText at 1.
  rewrite (proj2 (Z.ltb_lt _ _)) by lia.
  by rewrite shrinkLine_never_returns.
Qed.

Lemma getLinesFromText_never_returns_witness :
  _getLinesFromText 1000 {| bb_left := 0; bb_top := 0; bb_right := 0; bb_bottom := 0 |}
                    [72; 105] (Some (-1)) noLineCache
  = None.
Proof.
  apply getLinesFromText_never_returns; [by vm_compute | discriminate].
Defined.

(* ===================================================================== *)
(** * Further properties: the earlier constructor *)
(* ===================================================================== *)

Lemma mapSet_length {V} k (v : V) m : (length (mapSet k v m) <= S (length m))%nat.
Proof.
  induction m as [|[k' v'] m IH]; cbn [mapSet length]; [lia |].
  destruct (bool_decide _); cbn [length]; lia.
Qed.

Lemma mapSet_nonempty {V} k (v : V) m : mapSet k v m <> [].
Proof. destruct m as [|[k' v'] m]; cbn [mapSet]; [done |]. by destruct (bool_decide _). Qed.

Lemma mapSet_Forall {V} (P : JSString * V -> Prop) k v m :
  P (k, v) -> Forall P m -> Forall P (mapSet k v m).
Proof.
  intros Hk. induction 1 as [|[k' v'] m Hx Hm IH]; cbn [mapSet].
  - by constructor.
  - destruct (bool_decide _); constructor; done.
Qed.

Lemma generateGlyphEntries_spec draw (P : JSString * SDFGlyph -> Prop) cps :
  (forall cp, P (cp, draw cp)) ->
  let entries := generateGlyphEntries draw cps in
  Forall P entries
  /\ (length entries <= length cps)%nat
  /\ (cps <> [] -> entries <> []).
Proof.
  intros HP. unfold generateGlyphEntries.
  assert (Hgen : forall cps m,
    Forall P m ->
    let entries := fold_left (fun m cp => mapSet cp (draw cp) m) cps m in
    Forall P entries /\ (length entries <= length cps + length m)%nat
    /\ (m <> [] -> entries <> [])).
  { clear cps. induction cps as [|cp cps IH]; intros m Hm; cbn [fold_left length].
    - split; [done |]. split; [lia | done].
    - destruct (IH (mapSet cp (draw cp) m)) as (H1 & H2 & H3).
      { by apply mapSet_Forall. }
      split; [exact H1 |]. split.
      + pose proof (mapSet_length cp (draw cp) m). lia.
      + intros _. apply H3, mapSet_nonempty. }
  destruct cps as [|cp cps].
  - cbn. split; [constructor |]. split; [lia | done].
  - cbn [fold_left].
    destruct (Hgen cps (mapSet cp (draw cp) []) (mapSet_Forall P _ _ _ (HP cp) (Forall_nil_2 _)))
      as (H1 & H2 & H3).
    split; [exact H1 |]. split; [cbn [mapSet length] in *; lia |].
    intros _. apply H3, mapSet_nonempty.
Qed.

Lemma packRow0_spec y (next : list (JSString * SDFGlyph)) :
  forall x cs canvas location,
    Forall (fun e => positiveSize e.2) next -> 0 < cs ->
    let a' := packRow0 y x cs next canvas location in
    canvas_width (a0_canvas a') = canvas_width canvas
    /\ canvas_height (a0_canvas a') = canvas_height canvas
    /\ 0 < a0_currentSize a'
    /\ Forall (fun e => positiveSize e.2) (a0_next a')
    /\ (length (a0_next a') <= length next)%nat
    /\ (next <> [] -> x + cs <= canvas_width canvas ->
        (length (a0_next a') < length next)%nat)
    /\ (canvas_width canvas < x + cs -> a0_next a' = next /\ a0_currentSize a' = cs).
Proof.
  induction next as [|[codePoint glyph] next IH]; intros x cs canvas location Hpos Hcs;
    cbn [packRow0].
  - cbn [a0_canvas a0_currentSize a0_next]. repeat split; try done; lia.
  - destruct (Z.leb_spec (x + cs) (canvas_width canvas)) as [Hle | Hgt].
    + apply Forall_cons in Hpos as [Hg Hpos]. cbn [snd] in Hg.
      destruct (IH (x + Z.max (width glyph) (height glyph))
                   (Z.max (width glyph) (height glyph))
                   (putImageData (_makeRGBAImageData (data glyph) (width glyph) (height glyph))
                                 x y canvas)
                   (<[codePoint := (x, y)]> location) Hpos Hg)
        as (H1 & H2 & H3 & H4 & H5 & _ & _).
      cbn [putImageData canvas_width canvas_height] in H1, H2.
      split; [exact H1 |]. split; [exact H2 |]. split; [exact H3 |]. split; [exact H4 |].
      cbn [length]. split; [lia |]. split; [lia |]. lia.
    + cbn [a0_canvas a0_currentSize a0_next]. repeat split; try done; lia.
Qed.

Lemma packRows0_returns (k : nat) :
  forall y a,
    0 < a0_currentSize a ->
    Forall (fun e => positiveSize e.2) (a0_next a) ->
    (length (a0_next a) + Z.to_nat (canvas_height (a0_canvas a) - y + 1) <= k)%nat ->
    exists a',
      packRows0 (S k) y a = Some a'
      /\ canvas_width (a0_canvas a') = canvas_width (a0_canvas a)
      /\ canvas_height (a0_canvas a') = canvas_height (a0_canvas a).
Proof.
  induction k as [|k IH]; intros y a Hcs Hpos Hk.
  - cbn [packRows0]. destruct (a0_next a) as [|e rest] eqn:E; [| cbn [length] in Hk; lia].
    rewrite bool_decide_eq_true_2 by done. rewrite andb_false_r. by exists a.
  - change (packRows0 (S (S k)) y a)
      with (if (y + a0_currentSize a <=? canvas_height (a0_canvas a))
               && negb (bool_decide (a0_next a = []))
            then packRows0 (S k)
                   (y + a0_currentSize (packRow0 y 0 (a0_currentSize a) (a0_next a)
                                                 (a0_canvas a) (a0_location a)))
                   (packRow0 y 0 (a0_currentSize a) (a0_next a) (a0_canvas a)
                             (a0_location a))
            else Some a).
    destruct (Z.leb_spec (y + a0_currentSize a) (canvas_height (a0_canvas a))) as [Hy | Hy];
      [| by exists a].
    case_bool_decide as Hnext; [by exists a |]. cbn [andb negb].
    destruct (packRow0_spec y (a0_next a) 0 (a0_currentSize a) (a0_canvas a) (a0_location a)
                            Hpos Hcs) as (H1 & H2 & H3 & H4 & H5 & H6 & H7).
    destruct (IH (y + a0_currentSize (packRow0 y 0 (a0_currentSize a) (a0_next a)
                                               (a0_canvas a) (a0_location a)))
                 (packRow0 y 0 (a0_currentSize a) (a0_next a) (a0_canvas a) (a0_location a))
                 H3 H4) as (a' & Hrun & Hw & Hh).
    { rewrite H2.
      destruct (Z.le_gt_cases (0 + a0_currentSize a) (canvas_width (a0_canvas a)))
        as [Hfit | Hwide].
      - specialize (H6 Hnext Hfit). lia.
      - destruct (H7 Hwide) as [-> ->]. lia. }
    exists a'. split; [exact Hrun |]. split; congruence.
Qed.

(** X15.  The earlier constructor kept in the source returns for every
    alphabet, font size and rasterizer whose bitmaps have a positive side,
    within one test of its outer loop for each code point and each canvas
    row and two more.  It raises a [TypeError] for the empty alphabet
    (the first entry it destructures is missing) and returns a font
    otherwise, whose square canvas has the side
    [ceil(sqrt(alphabet.length)) * (fontSize + 2 * ceil(fontSize / 8))]
    computed from [options.fontSize] (16 when absent). *)
Theorem earlier_constructor_returns (env : Browser) (options : SDFFontOptions) (id : nat) :
  createElement_canvas env = Some id ->
  getContext_2d env = true ->
  (forall tinyOptions cp, positiveSize (TinySDF_draw env tinyOptions cp)) ->
  let fontSize := default 16 (opt_fontSize options) in
  let alphabet := default defaultAlphabet0 (opt_alphabet options) in
  let dimension := ceilSqrt (js_length alphabet) * (fontSize + ceilDiv fontSize 8 * 2) in
  exists res,
    SDFFont0_new (S (length (codePoints alphabet) + Z.to_nat (dimension + 1))) env options
    = Some res
    /\ (alphabet = [] -> res = Throw TypeError)
    /\ (alphabet <> [] ->
        exists f, res = Ok f
                  /\ canvas_id (atlasCanvas0 f) = id
                  /\ canvas_width (atlasCanvas0 f) = dimension
                  /\ canvas_height (atlasCanvas0 f) = dimension
                  /\ glyphs0 f <> []).
Proof.
  intros Hcanvas Hctx Hpos fontSize alphabet dimension. unfold SDFFont0_new.
  rewrite Hcanvas, Hctx. cbn [negb].
  fold fontSize. fold alphabet. fold dimension.
  set (tinySdf := TinySDF_draw env _).
  destruct (generateGlyphEntries_spec tinySdf (fun e => positiveSize e.2) (codePoints alphabet))
    as (Hall & Hlen & Hne); [intros cp; apply Hpos |].
  destruct (generateGlyphEntries tinySdf (codePoints alphabet)) as [|[cp0 glyph] entries] eqn:E.
  - exists (Throw TypeError). split; [reflexivity |]. split; [done |].
    intros Halpha. exfalso. apply Hne; [| reflexivity].
    intros Hnil. apply Halpha. by rewrite <- (codePoints_concat alphabet), Hnil.
  - set (start := {| a0_canvas := _ |}).
    destruct (packRows0_returns (length (codePoints alphabet) + Z.to_nat (dimension + 1)) 0 start)
      as (a' & Hrun & Hw & Hh).
    + apply Forall_cons in Hall as [Hg _]. exact Hg.
    + exact Hall.
    + subst start. cbn [a0_next a0_canvas setHeight setWidth canvas_height].
      rewrite Z.sub_0_r. lia.
    + rewrite Hrun. eexists. split; [reflexivity |]. split.
      * intros Halpha. rewrite Halpha in E. discriminate E.
      * intros _. eexists. split; [reflexivity |]. cbn [atlasCanvas0 glyphs0].
        assert (Hid : forall k y a a', packRows0 k y a = Some a' ->
                                       canvas_id (a0_canvas a') = canvas_id (a0_canvas a)).
        { clear. induction k as [|k IH]; intros y a a' Hrun; [discriminate |].
          cbn [packRows0] in Hrun. destruct (_ && _); [| by injection Hrun as ->].
          rewrite (IH _ _ _ Hrun). clear.
          generalize (a0_canvas a) (a0_location a) (a0_currentSize a) 0.
          induction (a0_next a) as [|[cp g] next IHn]; intros canvas location cs x;
            cbn [packRow0]; [reflexivity |].
          destruct (_ <=? _); [| reflexivity]. by rewrite IHn. }
        rewrite (Hid _ _ _ _ Hrun), Hw, Hh. done.
Qed.

(** The letters [AB] at font size 16, rasterized as 20 x 20 bitmaps: the
    canvas side is 2 * (16 + 2 * 2) = 40. *)
Lemma earlier_constructor_returns_witness :
  exists f,
    SDFFont0_new 44 (page 1 20 20 20 20) (withAlphabet [65; 66] (Some 16)) = Some (Ok f)
    /\ canvas_width (atlasCanvas0 f) = 40
    /\ canvas_height (atlasCanvas0 f) = 40.
Proof.
  destruct (earlier_constructor_returns (page 1 20 20 20 20)
                                        (withAlphabet [65; 66] (Some 16)) 1)
    as (res & Hrun & _ & Hok).
  - reflexivity.
  - reflexivity.
  - intros tinyOptions cp. unfold positiveSize. cbn [TinySDF_draw page].
    destruct (bool_decide _); cbn; lia.
  - destruct Hok as (f & -> & _ & Hw & Hh & _); [discriminate |].
    exists f. split; [exact Hrun |]. split; [exact Hw | exact Hh].
Defined.

(* ===================================================================== *)
(** * Further properties: instances *)
(* ===================================================================== *)



(* ===================================================================== *)
(** * Further properties: the empty alphabet *)
(* ===================================================================== *)

(** X16.  The font of the empty alphabet.  The constructor returns at its
    early [return], whatever the other options: both tables are empty and
    the canvas is 0 by 0, so no character of any text is present and a
    [draw] with the font hands over no quad.  (The earlier constructor
    raises a [TypeError] here.) *)
Theorem empty_alphabet_font_draws_nothing (fuel : nat) (env : Browser)
    (options : SDFFontOptions) (n : nat) :
  createElement_canvas env = Some n ->
  getContext_2d env = true ->
  opt_alphabet options = Some [] ->
  exists f,
    SDFFont_new fuel env options = Some (Ok f)
    /\ glyphs f = ∅ /\ glyphAtlasLocation f = ∅
    /\ canvas_width (atlasCanvas f) = 0 /\ canvas_height (atlasCanvas f) = 0
    /\ (forall text, presentGlyphs f text = 0)
    /\ (forall maxTextures cs text,
          emitted (draw f text (calls cs (newRenderer maxTextures)))
          = emitted (calls cs (newRenderer maxTextures)))
    /\ SDFFont0_new fuel env options = Some (Throw TypeError).
Proof.
  intros Hcanvas Hctx Halpha. unfold SDFFont_new, SDFFont0_new.
  rewrite Hcanvas, Hctx, Halpha. cbn [negb default from_option id codePoints].
  eexists. split; [reflexivity |].
  cbn [glyphs glyphAtlasLocation atlasCanvas at_canvas at_location setHeight setWidth
       canvas_width canvas_height].
  split; [reflexivity |]. split; [reflexivity |].
  split; [reflexivity |]. split; [reflexivity |].
  set (f := {| atlasCanvas := _ |}).
  assert (Habsent : forall c, isPresent f c = false).
  { intros c. unfold isPresent.
    assert (Hg : glyphs f = ∅) by reflexivity.
    rewrite bool_decide_eq_false_2; [reflexivity |].
    rewrite Hg, lookup_empty. by intros [? ?]. }
  assert (Hnone : forall text,
            filter (fun c => isPresent f c = true) (codePoints text) = []).
  { intros text. induction (codePoints text) as [|c cps IH]; [reflexivity |].
    rewrite filter_cons. rewrite decide_False by (by rewrite Habsent). exact IH. }
  split; [| split; [| reflexivity]].
  - intros text. unfold presentGlyphs. by rewrite Hnone.
  - intros maxTextures cs text.
    destruct (calls_advances cs _ (newRenderer_batchInv maxTextures)) as (Hinv & _).
    destruct (draw_emitted f text _ Hinv) as (w & h & t & E). rewrite E.
    pose proof (quadFor_chars f w h t (codePoints text)) as Hchars.
    rewrite Hnone in Hchars. apply fmap_nil_inv in Hchars. by rewrite Hchars, app_nil_r.
Qed.

Lemma empty_alphabet_font_draws_nothing_witness :
  exists f,
    SDFFont_new 0 (page 1 100 100 100 100) (withAlphabet [] (Some 16)) = Some (Ok f)
    /\ presentGlyphs f [65] = 0.
Proof.
  destruct (empty_alphabet_font_draws_nothing 0 (page 1 100 100 100 100)
                                              (withAlphabet [] (Some 16)) 1)
    as (f & Hrun & _ & _ & _ & _ & Hnone & _); [reflexivity.. |].
  exists f. split; [exact Hrun | apply Hnone].
Defined.
